(** * Image Identifier: the streaming response decoder and the send
      state machine of [src/pages/Index.tsx]

    The page keeps a transcript of messages, lets the user pick an image
    and sends it to a remote analysis function whose answer arrives as a
    stream of server-sent-event lines.  This development embeds the two
    event handlers of the component, [handleImageSelect] and [handleSend],
    together with the pieces of the JavaScript platform they rely on
    (string slicing and trimming, [JSON.parse], property access with
    optional chaining, truthiness and string coercion), and proves the
    properties of the decoder and of the transcript that the specification
    states. *)

From Stdlib Require Import Ascii String List ZArith NArith Bool Lia.
From Equations Require Import Equations.
Import ListNotations.

Set Warnings "-register-all".
Local Open Scope Z_scope.

(** ** JavaScript strings

    A JavaScript string is a sequence of UTF-16 code units.  The chunks
    the decoder works on are the pieces of text that
    [decoder.decode(value, { stream: true })] returns: in streaming mode
    the text decoder carries an incomplete multi-byte sequence over to the
    next call, so the concatenation of the pieces does not depend on where
    the transport cut the bytes. *)

Abbreviation jsstring := (list N).

Definition ch (a : ascii) : N := N_of_ascii a.

Definition js (s : string) : jsstring := map ch (list_ascii_of_string s).

(** Test data writes JSON with single quotes: [jq] turns each of them
    into the double quote of real JSON. *)
Definition jq (s : string) : jsstring :=
  map (fun c => if N.eqb c 39 then 34%N else c) (js s).

Definition LF : N := 10%N.
Definition CR : N := 13%N.

Fixpoint str_eqb (a b : jsstring) : bool :=
  match a, b with
  | [], [] => true
  | x :: a', y :: b' => N.eqb x y && str_eqb a' b'
  | _, _ => false
  end.

Definition strlen (s : jsstring) : Z := Z.of_nat (length s).

(** [s.slice(start, end)]: a negative index counts from the end, both
    indices are clamped to the string, an empty range gives the empty
    string. *)
Definition slice_index (len i : Z) : Z :=
  if i <? 0 then Z.max (len + i) 0 else Z.min i len.

Definition slice (s : jsstring) (start : Z) (stop : option Z) : jsstring :=
  let len := strlen s in
  let from := slice_index len start in
  let to := match stop with Some e => slice_index len e | None => len end in
  firstn (Z.to_nat (Z.max (to - from) 0)) (skipn (Z.to_nat from) s).

(** [s.startsWith(p)] and [s.endsWith(p)]. *)
Fixpoint startsWith (s p : jsstring) {struct p} : bool :=
  match p, s with
  | [], _ => true
  | x :: p', y :: s' => N.eqb x y && startsWith s' p'
  | _ :: _, [] => false
  end.

Definition endsWith (s p : jsstring) : bool :=
  startsWith (rev s) (rev p).

(** [s.indexOf(c)] for a one-character needle: the position of the first
    occurrence, [-1] when there is none. *)
Fixpoint indexOf (s : jsstring) (c : N) : Z :=
  match s with
  | [] => -1
  | x :: s' =>
      if N.eqb x c then 0
      else let i := indexOf s' c in if i <? 0 then -1 else i + 1
  end.

(** The code units [String.prototype.trim] removes: WhiteSpace and
    LineTerminator of ECMA-262. *)
Definition is_js_space (c : N) : bool :=
  ((9 <=? c) && (c <=? 13) || (c =? 32) || (c =? 160) || (c =? 5760)
   || (8192 <=? c) && (c <=? 8202) || (c =? 8232) || (c =? 8233)
   || (c =? 8239) || (c =? 8287) || (c =? 12288) || (c =? 65279))%N.

Fixpoint trimStart (s : jsstring) : jsstring :=
  match s with
  | c :: s' => if is_js_space c then trimStart s' else s
  | [] => []
  end.

Fixpoint trimEnd (s : jsstring) : jsstring :=
  match s with
  | [] => []
  | c :: s' =>
      match trimEnd s' with
      | [] => if is_js_space c then [] else [c]
      | r => c :: r
      end
  end.

Definition trim (s : jsstring) : jsstring := trimEnd (trimStart s).

(** ** JSON values and [JSON.parse]

    A number keeps its exact decimal value [m * 10^e]; an object keeps its
    members in source order, duplicates included. *)

Inductive json : Type :=
| JNull
| JBool (b : bool)
| JNum (m e : Z)
| JStr (s : jsstring)
| JArr (items : list json)
| JObj (members : list (jsstring * json)).

Definition is_json_ws (c : N) : bool :=
  ((c =? 32) || (c =? 9) || (c =? 10) || (c =? 13))%N.

Fixpoint skip_ws (s : jsstring) : jsstring :=
  match s with
  | c :: s' => if is_json_ws c then skip_ws s' else s
  | [] => []
  end.

Definition digit_val (c : N) : option Z :=
  if ((48 <=? c) && (c <=? 57))%N then Some (Z.of_N c - 48) else None.

Definition hex_val (c : N) : option N :=
  if ((48 <=? c) && (c <=? 57))%N then Some (c - 48)%N
  else if ((65 <=? c) && (c <=? 70))%N then Some (c - 55)%N
  else if ((97 <=? c) && (c <=? 102))%N then Some (c - 87)%N
  else None.

Definition hex4 (a b c d : N) : option N :=
  match hex_val a, hex_val b, hex_val c, hex_val d with
  | Some x, Some y, Some z, Some w => Some (((x * 16 + y) * 16 + z) * 16 + w)%N
  | _, _, _, _ => None
  end.

(** The characters of a string literal after its opening quote; [acc]
    holds the decoded code units in reverse. *)
Fixpoint parse_chars (s : jsstring) (acc : jsstring) : option (jsstring * jsstring) :=
  match s with
  | [] => None
  | c :: s' =>
      if (c =? 34)%N then Some (rev acc, s')
      else if (c =? 92)%N then
        match s' with
        | [] => None
        | e :: s'' =>
            if (e =? 34)%N then parse_chars s'' (34%N :: acc)
            else if (e =? 92)%N then parse_chars s'' (92%N :: acc)
            else if (e =? 47)%N then parse_chars s'' (47%N :: acc)
            else if (e =? 98)%N then parse_chars s'' (8%N :: acc)
            else if (e =? 102)%N then parse_chars s'' (12%N :: acc)
            else if (e =? 110)%N then parse_chars s'' (10%N :: acc)
            else if (e =? 114)%N then parse_chars s'' (13%N :: acc)
            else if (e =? 116)%N then parse_chars s'' (9%N :: acc)
            else if (e =? 117)%N then
              match s'' with
              | a :: b :: x :: y :: r =>
                  match hex4 a b x y with
                  | Some u => parse_chars r (u :: acc)
                  | None => None
                  end
              | _ => None
              end
            else None
        end
      else if (c <? 32)%N then None
      else parse_chars s' (c :: acc)
  end.

(** A maximal run of decimal digits: its value, its length, the rest. *)
Fixpoint take_digits (s : jsstring) (v : Z) (n : Z) : Z * Z * jsstring :=
  match s with
  | c :: s' =>
      match digit_val c with
      | Some d => take_digits s' (v * 10 + d) (n + 1)
      | None => (v, n, s)
      end
  | [] => (v, n, [])
  end.

(** A number: an optional minus sign, an integer part without a leading
    zero (unless it is the single digit zero), an optional fraction of at
    least one digit, an optional exponent of at least one digit. *)
Definition parse_number (s : jsstring) : option (json * jsstring) :=
  let '(neg, s1) :=
    match s with
    | c :: r => if (c =? 45)%N then (true, r) else (false, s)
    | [] => (false, s)
    end in
  let '(iv, il, s2) := take_digits s1 0 0 in
  if il =? 0 then None
  else if (1 <? il) && startsWith s1 [48%N] then None
  else
    let frac :=
      match s2 with
      | c :: r =>
          if (c =? 46)%N then
            let '(fv, fl, s3) := take_digits r iv 0 in
            if fl =? 0 then None else Some (fv, fl, s3)
          else Some (iv, 0, s2)
      | [] => Some (iv, 0, s2)
      end in
    match frac with
    | None => None
    | Some (m, fl, s3) =>
        let expo :=
          match s3 with
          | c :: r =>
              if (c =? 101)%N || (c =? 69)%N then
                let '(eneg, r') :=
                  match r with
                  | g :: r2 =>
                      if (g =? 45)%N then (true, r2)
                      else if (g =? 43)%N then (false, r2)
                      else (false, r)
                  | [] => (false, r)
                  end in
                let '(ev, el, s4) := take_digits r' 0 0 in
                if el =? 0 then None
                else Some ((if eneg then - ev else ev), s4)
              else Some (0, s3)
          | [] => Some (0, s3)
          end in
        match expo with
        | None => None
        | Some (ev, s4) =>
            Some (JNum (if neg then - m else m) (ev - fl), s4)
        end
    end.

Definition expect (lit : jsstring) (v : json) (s : jsstring) : option (json * jsstring) :=
  if startsWith s lit then Some (v, skipn (length lit) s) else None.

(** One JSON value at the front of [s], after optional white space.  Each
    recursive call spends one unit of fuel; a call chain spends at most two
    units per consumed character, so [2 * length s + 2] units are never
    used up. *)
Fixpoint parse_value (fuel : nat) (s : jsstring) : option (json * jsstring) :=
  match fuel with
  | O => None
  | S fuel' =>
      match skip_ws s with
      | [] => None
      | c :: r =>
          if (c =? 123)%N then
            match skip_ws r with
            | d :: r' =>
                if (d =? 125)%N then Some (JObj [], r')
                else parse_members fuel' (skip_ws r) []
            | [] => None
            end
          else if (c =? 91)%N then
            match skip_ws r with
            | d :: r' =>
                if (d =? 93)%N then Some (JArr [], r')
                else parse_elements fuel' (skip_ws r) []
            | [] => None
            end
          else if (c =? 34)%N then
            match parse_chars r [] with
            | Some (str, r') => Some (JStr str, r')
            | None => None
            end
          else if (c =? 116)%N then expect (js "true") (JBool true) (c :: r)
          else if (c =? 102)%N then expect (js "false") (JBool false) (c :: r)
          else if (c =? 110)%N then expect (js "null") JNull (c :: r)
          else parse_number (c :: r)
      end
  end
with parse_elements (fuel : nat) (s : jsstring) (acc : list json) : option (json * jsstring) :=
  match fuel with
  | O => None
  | S fuel' =>
      match parse_value fuel' s with
      | None => None
      | Some (v, r) =>
          match skip_ws r with
          | c :: r' =>
              if (c =? 44)%N then parse_elements fuel' r' (v :: acc)
              else if (c =? 93)%N then Some (JArr (rev (v :: acc)), r')
              else None
          | [] => None
          end
      end
  end
with parse_members (fuel : nat) (s : jsstring) (acc : list (jsstring * json)) : option (json * jsstring) :=
  match fuel with
  | O => None
  | S fuel' =>
      match skip_ws s with
      | q :: r0 =>
          if (q =? 34)%N then
            match parse_chars r0 [] with
            | None => None
            | Some (k, r1) =>
                match skip_ws r1 with
                | c :: r2 =>
                    if (c =? 58)%N then
                      match parse_value fuel' r2 with
                      | None => None
                      | Some (v, r3) =>
                          match skip_ws r3 with
                          | d :: r4 =>
                              if (d =? 44)%N then parse_members fuel' r4 ((k, v) :: acc)
                              else if (d =? 125)%N then Some (JObj (rev ((k, v) :: acc)), r4)
                              else None
                          | [] => None
                          end
                      end
                    else None
                | [] => None
                end
            end
          else None
      | [] => None
      end
  end.

(** [JSON.parse(text)]: [None] stands for the SyntaxError it throws. *)
Definition JSON_parse (text : jsstring) : option json :=
  match parse_value (2 * length text + 2) text with
  | Some (v, r) => match skip_ws r with [] => Some v | _ :: _ => None end
  | None => None
  end.

(** ** Numbers

    [JSON.parse] turns a number into the IEEE 754 double nearest to its
    decimal value (ties to even).  The two things the page does with a
    number, testing it for truth and turning it into text, are computed
    here exactly, over integers. *)

Inductive double : Type :=
| DZero
| DFinite (mant expo : Z)      (* [mant * 2^expo], [0 < mant < 2^53] *)
| DInfinity.

(** The double nearest to [p / q], for [0 <= p] and [0 < q]. *)
Definition round_double (p q : Z) : double :=
  if p =? 0 then DZero
  else
    let e0 := Z.log2 p - Z.log2 q - 52 in
    let ge_pow (k : Z) :=   (* [2^k <= p / q] *)
      if 0 <=? k then q * 2 ^ k <=? p else q <=? p * 2 ^ (- k) in
    let e1 := if ge_pow (e0 + 53) then e0 + 1
              else if ge_pow (e0 + 52) then e0 else e0 - 1 in
    let e := Z.max e1 (-1074) in
    let num := if e <? 0 then p * 2 ^ (- e) else p in
    let den := if e <? 0 then q else q * 2 ^ e in
    let quo := num / den in
    let rem := num mod den in
    let m := if (den <? 2 * rem) || ((den =? 2 * rem) && Z.odd quo)
             then quo + 1 else quo in
    let '(m, e) := if m =? 2 ^ 53 then (2 ^ 52, e + 1) else (m, e) in
    if m =? 0 then DZero
    else if 971 <? e then DInfinity
    else DFinite m e.

(** The double denoted by the decimal [m * 10^e], [0 <= m]. *)
Definition double_of_decimal (m e : Z) : double :=
  if 0 <=? e then round_double (m * 10 ^ e) 1 else round_double m (10 ^ (- e)).

Definition double_eqb (a b : double) : bool :=
  match a, b with
  | DZero, DZero => true
  | DInfinity, DInfinity => true
  | DFinite m e, DFinite m' e' => (m =? m') && (e =? e')
  | _, _ => false
  end.

Fixpoint digits_aux (fuel : nat) (v : Z) (acc : jsstring) : jsstring :=
  match fuel with
  | O => acc
  | S fuel' =>
      let acc' := (Z.to_N (v mod 10) + 48)%N :: acc in
      if v <? 10 then acc' else digits_aux fuel' (v / 10) acc'
  end.

(** The decimal digits of a natural number. *)
Definition digits (v : Z) : jsstring :=
  digits_aux (S (Z.to_nat (Z.log2 v))) v [].

(** The [n] with [10^(n-1) <= p / q < 10^n], searched downwards from an
    upper estimate: [p / q < 2^l] for [l = log2 p - log2 q + 1], and
    [log10 2] lies between [0.30] and [0.31]. *)
Fixpoint magnitude_aux (fuel : nat) (p q n : Z) : Z :=
  match fuel with
  | O => n
  | S fuel' =>
      let ge := if 0 <=? n - 1 then q * 10 ^ (n - 1) <=? p
                else q <=? p * 10 ^ (1 - n) in
      if ge then n else magnitude_aux fuel' p q (n - 1)
  end.

Definition magnitude (p q : Z) : Z :=
  let l := Z.log2 p - Z.log2 q + 1 in
  magnitude_aux 400 p q ((if 0 <=? l then l * 31 else l * 30) / 100 + 2).

(** The shortest decimal [s * 10^(n-k)] with [k] digits that reads back
    as the double [mant * 2^expo], the one nearest to it when two do. *)
Fixpoint shortest (fuel : nat) (k : Z) (mant expo : Z) : Z * Z * Z :=
  let p := if 0 <=? expo then mant * 2 ^ expo else mant in
  let q := if 0 <=? expo then 1 else 2 ^ (- expo) in
  let n0 := magnitude p q in
  let sh := n0 - k in                     (* candidates are [s * 10^sh] *)
  let num := if 0 <=? sh then p else p * 10 ^ (- sh) in
  let den := if 0 <=? sh then q * 10 ^ sh else q in
  let lo := num / den in
  let hi := lo + 1 in
  let reads s := double_eqb (double_of_decimal s sh) (DFinite mant expo) in
  let nearer_hi := (den <? 2 * (num mod den))
                   || ((den =? 2 * (num mod den)) && Z.odd lo) in
  let norm s := if s =? 10 ^ k then (10 ^ (k - 1), k, n0 + 1) else (s, k, n0) in
  match fuel with
  | O => norm lo
  | S fuel' =>
      match (0 <? lo) && reads lo, reads hi with
      | true, true => if nearer_hi then norm hi else norm lo
      | true, false => norm lo
      | false, true => norm hi
      | false, false => shortest fuel' (k + 1) mant expo
      end
  end.

Fixpoint zeros (n : nat) : jsstring :=
  match n with O => [] | S n' => 48%N :: zeros n' end.

(** [Number::toString] in radix 10 for a non-negative double. *)
Definition double_toString (d : double) : jsstring :=
  match d with
  | DZero => js "0"
  | DInfinity => js "Infinity"
  | DFinite mant expo =>
      let '(s, k, n) := shortest 17 1 mant expo in
      let ds := digits s in
      if (k <=? n) && (n <=? 21) then ds ++ zeros (Z.to_nat (n - k))
      else if (0 <? n) && (n <=? 21) then
        firstn (Z.to_nat n) ds ++ js "." ++ skipn (Z.to_nat n) ds
      else if (-6 <? n) && (n <=? 0) then
        js "0." ++ zeros (Z.to_nat (- n)) ++ ds
      else
        let ex := (if 0 <=? n - 1 then js "+" else js "-") ++ digits (Z.abs (n - 1)) in
        if k =? 1 then ds ++ js "e" ++ ex
        else firstn 1 ds ++ js "." ++ skipn 1 ds ++ js "e" ++ ex
  end.

(** [Number::toString] of the number [JNum m e]. *)
Definition Number_toString (m e : Z) : jsstring :=
  match double_of_decimal (Z.abs m) e with
  | DZero => js "0"
  | d => (if m <? 0 then js "-" else []) ++ double_toString d
  end.

(** A number is falsy exactly when it is zero. *)
Definition number_truthy (m e : Z) : bool :=
  negb (double_eqb (double_of_decimal (Z.abs m) e) DZero).

(** ** Property access, truthiness and string coercion

    A JavaScript value met by the page is a JSON value or [undefined],
    written [None]. *)

Definition jsvalue := option json.

(** [o.name] for an object that is neither [null] nor [undefined], and a
    [name] that no built-in prototype defines (the page reads [choices],
    [delta], [content] and [error]): an own member of an object, the last
    one when the name is repeated, and [undefined] everywhere else. *)
Fixpoint find_member (ms : list (jsstring * json)) (name : jsstring) (found : jsvalue) : jsvalue :=
  match ms with
  | [] => found
  | (k, v) :: ms' => find_member ms' name (if str_eqb k name then Some v else found)
  end.

Definition get_named (o : json) (name : jsstring) : jsvalue :=
  match o with
  | JObj ms => find_member ms name None
  | _ => None
  end.

(** [o[0]]: the first element of an array, the first code unit of a
    string, the member named [0] of an object. *)
Definition get_first (o : json) : jsvalue :=
  match o with
  | JArr (x :: _) => Some x
  | JStr (c :: _) => Some (JStr [c])
  | JObj ms => find_member ms (js "0") None
  | _ => None
  end.

(** [a?.b]: [undefined] when [a] is [null] or [undefined]. *)
Definition optional (a : jsvalue) (access : json -> jsvalue) : jsvalue :=
  match a with
  | None | Some JNull => None
  | Some o => access o
  end.

(** [parsed.choices?.[0]?.delta?.content].  The first access is not
    optional: on [null] it throws a TypeError, here [None]. *)
Definition delta_content (parsed : json) : option jsvalue :=
  match parsed with
  | JNull => None
  | _ =>
      let choices := get_named parsed (js "choices") in
      let first := optional choices get_first in
      let delta := optional first (fun o => get_named o (js "delta")) in
      Some (optional delta (fun o => get_named o (js "content")))
  end.

Definition truthy (v : jsvalue) : bool :=
  match v with
  | None | Some JNull => false
  | Some (JBool b) => b
  | Some (JNum m e) => number_truthy m e
  | Some (JStr s) => negb (str_eqb s [])
  | Some (JArr _) | Some (JObj _) => true
  end.

Fixpoint join (sep : jsstring) (parts : list jsstring) : jsstring :=
  match parts with
  | [] => []
  | [x] => x
  | x :: rest => x ++ sep ++ join sep rest
  end.

Fixpoint sequence (l : list (option jsstring)) : option (list jsstring) :=
  match l with
  | [] => Some []
  | None :: _ => None
  | Some x :: l' =>
      match sequence l' with Some r => Some (x :: r) | None => None end
  end.

(** [ToString(v)]; [None] stands for the TypeError thrown when an object
    cannot be converted to a primitive, which for a parsed object happens
    exactly when it has a member of its own named [toString] (a parsed
    member is never callable).  An array joins its elements with commas,
    [null] elements counting as empty. *)
Fixpoint ToString (v : json) : option jsstring :=
  match v with
  | JNull => Some (js "null")
  | JBool true => Some (js "true")
  | JBool false => Some (js "false")
  | JNum m e => Some (Number_toString m e)
  | JStr s => Some s
  | JArr items =>
      match sequence (map (fun x => match x with
                                    | JNull => Some []
                                    | _ => ToString x
                                    end) items) with
      | Some parts => Some (join (js ",") parts)
      | None => None
      end
  | JObj ms =>
      match find_member ms (js "toString") None with
      | Some _ => None
      | None => Some (js "[object Object]")
      end
  end.

(** ** The streaming response decoder *)

(** What the body of the inner loop does with one extracted line. *)
Inductive line_outcome : Type :=
| Skipped                          (* [continue], or a parsed event without content *)
| Sentinel                         (* [break] on the end-of-stream marker *)
| Fragment (content : jsstring)    (* [assistantContent += content] and publish *)
| PushedBack (line : jsstring).    (* [catch]: the line goes back, [break] *)

Definition DONE : jsstring := js "[DONE]".
Definition data_prefix : jsstring := js "data: ".

(** [if (line.endsWith("\r")) line = line.slice(0, -1)] *)
Definition strip_cr (line : jsstring) : jsstring :=
  if endsWith line [CR] then slice line 0 (Some (-1)) else line.

(** The [try] around [JSON.parse]: a SyntaxError, the TypeError of reading
    [choices] from [null] and the TypeError of appending an object that
    has no primitive value all land in the same [catch]. *)
Definition parse_event (line jsonStr : jsstring) : line_outcome :=
  match JSON_parse jsonStr with
  | None => PushedBack line
  | Some parsed =>
      match delta_content parsed with
      | None => PushedBack line
      | Some content =>
          if truthy content then
            match content with
            | Some c =>
                match ToString c with
                | Some text => Fragment text
                | None => PushedBack line
                end
            | None => Skipped
            end
          else Skipped
      end
  end.

(** The tests on a line once its carriage return is gone. *)
Definition classify_line (line : jsstring) : line_outcome :=
  if startsWith line (js ":") || str_eqb (trim line) [] then Skipped
  else if negb (startsWith line data_prefix) then Skipped
  else
    let jsonStr := trim (slice line 6 None) in
    if str_eqb jsonStr DONE then Sentinel
    else parse_event line jsonStr.

Definition process_line (extracted : jsstring) : line_outcome :=
  classify_line (strip_cr extracted).

(** One call of [setMessages] from the decoder.  [published] is the value
    of [assistantContent] handed to the transcript; the line and the
    fragment it came from are kept to state where an update comes from. *)
Record update : Type := {
  source_line : jsstring;
  fragment : jsstring;
  published : jsstring
}.

Record decoder : Type := {
  textBuffer : jsstring;
  assistantContent : jsstring;
  updates : list update
}.

(** Matching on a value while remembering which value it was. *)
Definition inspect {A : Type} (x : A) : {y : A | x = y} := exist _ x eq_refl.

(** The inner loop: while the buffer holds a newline, cut the first line
    off and process it. *)
Equations? drain (buf acc : jsstring) : decoder by wf (length buf) lt :=
  drain buf acc with inspect (indexOf buf LF) := {
    | exist _ newlineIndex Hidx with inspect (newlineIndex =? -1) := {
      | exist _ true _ := {| textBuffer := buf; assistantContent := acc; updates := [] |}
      | exist _ false Hne :=
          let line := slice buf 0 (Some newlineIndex) in
          let rest := slice buf (newlineIndex + 1) None in
          match process_line line with
          | Skipped => drain rest acc
          | Sentinel =>
              {| textBuffer := rest; assistantContent := acc; updates := [] |}
          | Fragment content =>
              let acc' := acc ++ content in
              let d := drain rest acc' in
              {| textBuffer := textBuffer d;
                 assistantContent := assistantContent d;
                 updates := {| source_line := line; fragment := content;
                               published := acc' |} :: updates d |}
          | PushedBack l =>
              {| textBuffer := l ++ [LF] ++ rest; assistantContent := acc;
                 updates := [] |}
          end } }.
Proof.
  all: assert (Hrange : -1 <= indexOf buf LF < Z.of_nat (length buf))
    by (clear; induction buf as [|x s IH]; cbn [indexOf length];
        [lia | destruct (N.eqb x LF); [lia|];
               destruct (Z.ltb_spec (indexOf s LF) 0); lia]).
  all: apply Z.eqb_neq in Hne; subst rest; unfold slice, slice_index, strlen.
  all: match goal with |- context [?i + 1 <? 0] =>
         destruct (Z.ltb_spec (i + 1) 0); [lia|]
       end.
  all: rewrite length_firstn, length_skipn; lia.
Qed.

(** The outer loop, one iteration per chunk read from the body. *)
Fixpoint read_loop (chunks : list jsstring) (buf acc : jsstring) : decoder :=
  match chunks with
  | [] => {| textBuffer := buf; assistantContent := acc; updates := [] |}
  | value :: chunks' =>
      let d := drain (buf ++ value) acc in
      let d' := read_loop chunks' (textBuffer d) (assistantContent d) in
      {| textBuffer := textBuffer d';
         assistantContent := assistantContent d';
         updates := updates d ++ updates d' |}
  end.

(** The decoder as [handleSend] starts it: empty buffer, empty answer. *)
Definition decode (chunks : list jsstring) : decoder := read_loop chunks [] [].

(** ** The transcript and the page state *)

Inductive Role : Type := user | assistant.

Record Message : Type := {
  role : Role;
  content : jsstring;
  imageUrl : option jsstring
}.

(** A text shown to the user: a string the page knows, or the message of
    a TypeError raised by the engine, whose wording is the engine's. *)
Inductive type_error : Type :=
| ReadPropertyOfNull
| NotConvertibleToPrimitive.

Inductive text : Type :=
| Text (s : jsstring)
| EngineMessage (e : type_error).

(** What a rejected promise or a [throw] carries: an [Error] with its
    message, or a value that is not an [Error]. *)
Inductive thrown : Type :=
| ErrorObject (message : text)
| OtherValue.

(** The JSON body of the request. [prompt] is left out of the body when it
    is [undefined]. *)
Record request : Type := {
  imageBase64 : jsstring;
  prompt : option jsstring
}.

(** The component state ([useState] and the file input behind
    [fileInputRef], [None] while the ref is not attached), together with
    the two effects the handlers have on the outside: the toasts shown and
    the requests issued, oldest first. *)
Record page : Type := {
  messages : list Message;
  input : jsstring;
  selectedImage : option jsstring;
  isLoading : bool;
  fileInput : option jsstring;
  toasts : list text;
  requests : list request
}.

Definition setMessages (f : list Message -> list Message) (st : page) : page :=
  {| messages := f (messages st); input := input st;
     selectedImage := selectedImage st; isLoading := isLoading st;
     fileInput := fileInput st; toasts := toasts st; requests := requests st |}.

Definition setInput (v : jsstring) (st : page) : page :=
  {| messages := messages st; input := v;
     selectedImage := selectedImage st; isLoading := isLoading st;
     fileInput := fileInput st; toasts := toasts st; requests := requests st |}.

Definition setSelectedImage (v : option jsstring) (st : page) : page :=
  {| messages := messages st; input := input st;
     selectedImage := v; isLoading := isLoading st;
     fileInput := fileInput st; toasts := toasts st; requests := requests st |}.

Definition setIsLoading (v : bool) (st : page) : page :=
  {| messages := messages st; input := input st;
     selectedImage := selectedImage st; isLoading := v;
     fileInput := fileInput st; toasts := toasts st; requests := requests st |}.

(** The file input is emptied when [fileInputRef.current] is attached. *)
Definition resetFileInput (st : page) : page :=
  {| messages := messages st; input := input st;
     selectedImage := selectedImage st; isLoading := isLoading st;
     fileInput := match fileInput st with Some _ => Some [] | None => None end;
     toasts := toasts st; requests := requests st |}.

Definition toast_error (t : text) (st : page) : page :=
  {| messages := messages st; input := input st;
     selectedImage := selectedImage st; isLoading := isLoading st;
     fileInput := fileInput st; toasts := toasts st ++ [t];
     requests := requests st |}.

Definition fetch_post (r : request) (st : page) : page :=
  {| messages := messages st; input := input st;
     selectedImage := selectedImage st; isLoading := isLoading st;
     fileInput := fileInput st; toasts := toasts st;
     requests := requests st ++ [r] |}.

(** ** [handleImageSelect] *)

Record File : Type := {
  type : jsstring;
  size : Z;
  (* what [readAsDataURL] hands to [onload]; [None] when reading fails and
     [onload] never runs *)
  dataURL : option jsstring
}.

Definition MAX_SIZE : Z := 20 * 1024 * 1024.

Definition handleImageSelect (file : option File) (st : page) : page :=
  match file with
  | None => st
  | Some f =>
      if negb (startsWith (type f) (js "image/")) then
        toast_error (Text (js "Please select an image file")) st
      else if MAX_SIZE <? size f then
        toast_error (Text (js "Image size must be less than 20MB")) st
      else
        match dataURL f with
        | Some url => setSelectedImage (Some url) st
        | None => st
        end
  end.

(** ** [handleSend] *)

(** The body of a response as the read loop sees it: the chunks that
    arrive, then either the end of the stream or a read that rejects. *)
Record body_stream : Type := {
  chunks : list jsstring;
  read_error : option thrown
}.

(** A response: its [ok] flag, its [body] ([null] is [None]) and what
    [response.json()] resolves to ([None] when it rejects). *)
Record response : Type := {
  ok : bool;
  body : option body_stream;
  json_body : option json
}.

Inductive fetch_result : Type :=
| Rejected (e : thrown)
| Responded (r : response).

Definition default_question : jsstring := js "What's in this image?".
Definition generic_failure : jsstring := js "Failed to analyze image".

Definition assistantMessage : Message :=
  {| role := assistant; content := []; imageUrl := None |}.

(** [a || b] on strings: the empty string is falsy. *)
Definition or_else (a b : jsstring) : jsstring :=
  match a with [] => b | _ :: _ => a end.

(** [!selectedImage]: [null] and the empty string are falsy. *)
Definition no_image (v : option jsstring) : bool :=
  match v with
  | None | Some [] => true
  | Some (_ :: _) => false
  end.

(** [newMessages[newMessages.length - 1] = m] on a copy of [prev].  On an
    empty array the index is [-1]: the assignment creates a property of
    that name and the array keeps no element. *)
Fixpoint replace_at (i : nat) (m : Message) (l : list Message) : list Message :=
  match l, i with
  | [], _ => []
  | _ :: l', O => m :: l'
  | x :: l', S i' => x :: replace_at i' m l'
  end.

Definition set_last (m : Message) (prev : list Message) : list Message :=
  let i := Z.of_nat (length prev) - 1 in
  if i <? 0 then prev else replace_at (Z.to_nat i) m prev.

(** The updater the decoder passes to [setMessages] for one fragment. *)
Definition publish (assistantContent : jsstring) (prev : list Message) : list Message :=
  set_last {| role := role assistantMessage;
              content := assistantContent;
              imageUrl := imageUrl assistantMessage |} prev.

(** [prev.slice(0, -1)] on the transcript. *)
Definition slice_last (prev : list Message) : list Message :=
  firstn (length prev - 1) prev.

Definition apply_updates (us : list update) (st : page) : page :=
  fold_left (fun s u => setMessages (publish (published u)) s) us st.

(** [new Error(errorData.error || "Failed to analyze image")], thrown. *)
Definition http_failure (r : response) : thrown :=
  let errorData := match json_body r with Some j => j | None => JObj [] end in
  match errorData with
  | JNull => ErrorObject (EngineMessage ReadPropertyOfNull)
  | _ =>
      let e := get_named errorData (js "error") in
      if truthy e then
        match e with
        | Some v =>
            match ToString v with
            | Some msg => ErrorObject (Text msg)
            | None => ErrorObject (EngineMessage NotConvertibleToPrimitive)
            end
        | None => ErrorObject (Text generic_failure)
        end
      else ErrorObject (Text generic_failure)
  end.

(** [error instanceof Error ? error.message : "Failed to analyze image"] *)
Definition error_text (error : thrown) : text :=
  match error with
  | ErrorObject message => message
  | OtherValue => Text generic_failure
  end.

(** The [try] block: the state it leaves, and what it threw if it did. *)
Definition try_block (img : jsstring) (typed : jsstring) (net : fetch_result)
    (st : page) : page * option thrown :=
  let st := fetch_post {| imageBase64 := img;
                          prompt := match trim typed with
                                    | [] => None
                                    | t => Some t
                                    end |} st in
  match net with
  | Rejected e => (st, Some e)
  | Responded r =>
      match ok r, body r with
      | true, Some b =>
          let st := apply_updates (updates (decode (chunks b))) st in
          match read_error b with
          | Some e => (st, Some e)
          | None => (resetFileInput (setSelectedImage None st), None)
          end
      | _, _ => (st, Some (http_failure r))
      end
  end.

Definition handleSend (net : fetch_result) (st : page) : page :=
  if no_image (selectedImage st) && str_eqb (trim (input st)) [] then
    toast_error (Text (js "Please upload an image or enter a message")) st
  else
    match selectedImage st with
    | None | Some [] =>
        toast_error (Text (js "Please upload an image to analyze")) st
    | Some img =>
        let typed := input st in
        let userMessage :=
          {| role := user;
             content := or_else (trim typed) default_question;
             imageUrl := Some img |} in
        let st := setMessages (fun prev => prev ++ [userMessage]) st in
        let st := setInput [] st in
        let st := setIsLoading true st in
        let st := setMessages (fun prev => prev ++ [assistantMessage]) st in
        let st :=
          match try_block img typed net st with
          | (st, None) => st
          | (st, Some error) =>
              let st := toast_error (error_text error) st in
              setMessages (fun prev => slice_last prev) st
          end in
        setIsLoading false st
    end.

(** ** [JSON.stringify] of the request body

    [handleSend] posts [JSON.stringify({ imageBase64, prompt })].  Only
    strings occur in that object, and a member whose value is [undefined]
    is left out. *)

Definition hex_digit (d : N) : N :=
  (if d <? 10 then 48 + d else 87 + d)%N.

(** A backslash, [u] and four lower-case hexadecimal digits. *)
Definition unicode_escape (c : N) : jsstring :=
  [92; 117; hex_digit ((c / 4096) mod 16); hex_digit ((c / 256) mod 16);
   hex_digit ((c / 16) mod 16); hex_digit (c mod 16)]%N.

Definition is_leading_surrogate (c : N) : bool :=
  ((55296 <=? c) && (c <=? 56319))%N.

Definition is_trailing_surrogate (c : N) : bool :=
  ((56320 <=? c) && (c <=? 57343))%N.

(** A code unit that is not a surrogate, quoted. *)
Definition quote_unit (c : N) : jsstring :=
  (if c =? 8 then [92; 98]
   else if c =? 9 then [92; 116]
   else if c =? 10 then [92; 110]
   else if c =? 12 then [92; 102]
   else if c =? 13 then [92; 114]
   else if c =? 34 then [92; 34]
   else if c =? 92 then [92; 92]
   else if c <? 32 then unicode_escape c
   else [c])%N.

(** The characters between the quotes: a surrogate pair is copied, a
    surrogate on its own is escaped. *)
Fixpoint quote_units (s : jsstring) : jsstring :=
  match s with
  | [] => []
  | c :: s' =>
      if is_leading_surrogate c then
        match s' with
        | d :: s'' =>
            if is_trailing_surrogate d then c :: d :: quote_units s''
            else unicode_escape c ++ quote_units s'
        | [] => unicode_escape c
        end
      else if is_trailing_surrogate c then unicode_escape c ++ quote_units s'
      else quote_unit c ++ quote_units s'
  end.

Definition QuoteJSONString (s : jsstring) : jsstring :=
  [34%N] ++ quote_units s ++ [34%N].

(** The text of the request body. *)
Definition request_body (r : request) : jsstring :=
  js "{" ++ QuoteJSONString (js "imageBase64") ++ js ":"
    ++ QuoteJSONString (imageBase64 r)
    ++ match prompt r with
       | Some p => js "," ++ QuoteJSONString (js "prompt") ++ js ":" ++ QuoteJSONString p
       | None => []
       end
    ++ js "}".

(** ** The other handlers and the guards of the controls *)

(** The state the component starts in; the file input is mounted and
    empty. *)
Definition initial_page : page :=
  {| messages := []; input := []; selectedImage := None; isLoading := false;
     fileInput := Some []; toasts := []; requests := [] |}.

(** The button on the preview of the selected image. *)
Definition removeImage (st : page) : page :=
  resetFileInput (setSelectedImage None st).

(** [disabled={isLoading || !selectedImage}] on the send button. *)
Definition send_disabled (st : page) : bool :=
  isLoading st || no_image (selectedImage st).

(** The preview and its remove button are rendered for a truthy
    [selectedImage] only. *)
Definition preview_shown (st : page) : bool :=
  negb (no_image (selectedImage st)).

(** [onKeyDown] of the text area: Enter without Shift sends. *)
Definition onKeyDown (key : jsstring) (shiftKey : bool) (net : fetch_result)
    (st : page) : page :=
  if str_eqb key (js "Enter") && negb shiftKey then handleSend net st else st.

(** What the user can do.  The file picker opens from a button that is
    disabled while loading, as is the text area; the remove button exists
    only with the preview; the send button has its own guard.  An event
    on a control that is disabled or absent does not reach its handler.
    Events are handled one at a time: a send runs to its end before the
    next event is looked at. *)
Inductive event : Type :=
| PickFile (file : option File)
| ClickRemove
| TypeInput (value : jsstring)
| KeyDown (key : jsstring) (shiftKey : bool) (net : fetch_result)
| ClickSend (net : fetch_result).

Definition enabled (ev : event) (st : page) : bool :=
  match ev with
  | PickFile _ | TypeInput _ | KeyDown _ _ _ => negb (isLoading st)
  | ClickRemove => preview_shown st
  | ClickSend _ => negb (send_disabled st)
  end.

Definition react (ev : event) (st : page) : page :=
  if enabled ev st then
    match ev with
    | PickFile file => handleImageSelect file st
    | ClickRemove => removeImage st
    | TypeInput value => setInput value st
    | KeyDown key shiftKey net => onKeyDown key shiftKey net st
    | ClickSend net => handleSend net st
    end
  else st.

Definition run (evs : list event) (st : page) : page :=
  fold_left (fun s ev => react ev s) evs st.

(** * The vocabulary of the statements *)

Definition stop (buf acc : jsstring) : decoder :=
  {| textBuffer := buf; assistantContent := acc; updates := [] |}.

(** Each update publishes what the previous one published, extended by
    its own fragment. *)
Fixpoint chained (acc : jsstring) (us : list update) : Prop :=
  match us with
  | [] => True
  | u :: us' => published u = acc ++ fragment u /\ chained (published u) us'
  end.

Definition fragments (us : list update) : jsstring := concat (map fragment us).

(** Every update comes from a line that the loop turned into a fragment. *)
Definition from_fragment (u : update) : Prop :=
  process_line (source_line u) = Fragment (fragment u).

Definition answer (acc : jsstring) : Message :=
  {| role := assistant; content := acc; imageUrl := None |}.

(** The complete lines of a stream, in order; a last line without its
    newline is not one of them. *)
Fixpoint lines_from (s : jsstring) (current : jsstring) : list jsstring :=
  match s with
  | [] => []
  | c :: s' =>
      if N.eqb c LF then rev current :: lines_from s' []
      else lines_from s' (c :: current)
  end.

Definition complete_lines (s : jsstring) : list jsstring := lines_from s [].

Definition is_skipped (line : jsstring) : bool :=
  match process_line line with Skipped => true | _ => false end.

Definition is_quiet (line : jsstring) : bool :=
  match process_line line with Fragment _ => false | _ => true end.

(** A well-formed stream: every complete line is a comment, a blank line,
    a field other than [data], a [data] event that parses, or the
    sentinel; no event is malformed, and what follows the sentinel is
    ignorable. *)
Fixpoint well_formed_lines (ls : list jsstring) : bool :=
  match ls with
  | [] => true
  | l :: ls' =>
      match process_line l with
      | Skipped | Fragment _ => well_formed_lines ls'
      | Sentinel => forallb is_skipped ls'
      | PushedBack _ => false
      end
  end.

Definition well_formed (stream : jsstring) : bool :=
  well_formed_lines (complete_lines stream).

(** The weaker condition that chunking independence rests on: no line
    after the first sentinel carries a fragment (lines after a malformed
    line are never reached, so nothing is asked of them). *)
Fixpoint calm_after_sentinel (ls : list jsstring) : bool :=
  match ls with
  | [] => true
  | l :: ls' =>
      match process_line l with
      | Skipped | Fragment _ => calm_after_sentinel ls'
      | Sentinel => forallb is_quiet ls'
      | PushedBack _ => true
      end
  end.

(** Whether the inner loop leaves by [break] on these lines. *)
Fixpoint halts (ls : list jsstring) : bool :=
  match ls with
  | [] => false
  | l :: ls' =>
      match process_line l with
      | Skipped | Fragment _ => halts ls'
      | Sentinel | PushedBack _ => true
      end
  end.

(** A buffer whose first line is pushed back whenever it is extracted. *)
Definition stuck (buf : jsstring) : Prop :=
  exists line rest l,
    buf = line ++ LF :: rest /\ indexOf line LF = -1 /\
    process_line line = PushedBack l.

Definition combine_runs (d d' : decoder) : decoder :=
  {| textBuffer := textBuffer d';
     assistantContent := assistantContent d';
     updates := updates d ++ updates d' |}.

Definition cat_event : jsstring :=
  jq "data: {'choices':[{'delta':{'content':'cat'}}]}" ++ [LF].

Definition done_line : jsstring := js "data: [DONE]" ++ [LF].

Definition sample_stream_pieces : list jsstring :=
  [ jq "data: {'choices':[{'del";
    jq "ta':{'content':'a c'}}]}" ++ [CR; LF] ++ js ": keep-alive" ++ [LF; LF]
      ++ jq "data: {'choices':[{'delta':{'con";
    jq "tent':'at'}}]}" ++ [LF; LF] ++ js "data: [DO";
    js "NE]" ++ [LF; LF] ].

Definition split_event_first : jsstring := jq "data: {'choices':[{'delta':{'con".
Definition split_event_second : jsstring := jq "tent':'cat'}}]}" ++ [LF].

(** The user message a send appends. *)
Definition userMessage (st : page) (img : jsstring) : Message :=
  {| role := user;
     content := or_else (trim (input st)) default_question;
     imageUrl := Some img |}.

(** The request a send issues. *)
Definition analysis_request (st : page) (img : jsstring) : request :=
  {| imageBase64 := img;
     prompt := match trim (input st) with [] => None | t => Some t end |}.

(** The state at the [try]: both messages appended, input cleared,
    sending disabled. *)
Definition at_try (st : page) (img : jsstring) : page :=
  setMessages (fun prev => prev ++ [assistantMessage])
    (setIsLoading true
       (setInput []
          (setMessages (fun prev => prev ++ [userMessage st img]) st))).

(** Whether the response is turned down before any decoding. *)
Definition http_failed (r : response) : bool :=
  negb (ok r) || match body r with None => true | Some _ => false end.

(** Whether the [try] block throws. *)
Definition send_fails (net : fetch_result) : bool :=
  match net with
  | Rejected _ => true
  | Responded r =>
      http_failed r ||
      match body r with
      | Some b => match read_error b with Some _ => true | None => false end
      | None => true
      end
  end.

(** A page with an image selected and a question typed, used to run the
    handlers on. *)
Definition sample_page : page :=
  {| messages := [{| role := user; content := js "earlier";
                     imageUrl := Some (js "data:image/png;base64,AAAA") |};
                  {| role := assistant; content := js "an answer"; imageUrl := None |}];
     input := js "  what breed?  ";
     selectedImage := Some (js "data:image/jpeg;base64,BBBB");
     isLoading := false;
     fileInput := Some (js "C:\fakepath\dog.jpg");
     toasts := [];
     requests := [] |}.

Definition rate_limited : fetch_result :=
  Responded {| ok := false; body := Some {| chunks := []; read_error := None |};
               json_body := JSON_parse (jq "{'error':'rate limited'}") |}.

Definition broken_stream : fetch_result :=
  Responded {| ok := true;
               body := Some {| chunks := [cat_event];
                               read_error := Some (ErrorObject (Text (js "network error"))) |};
               json_body := None |}.

Definition good_stream : fetch_result :=
  Responded {| ok := true;
               body := Some {| chunks := sample_stream_pieces; read_error := None |};
               json_body := None |}.

(** The [error] member of the JSON body of a response, when the body is an
    object that has one. *)
Definition server_error (net : fetch_result) : jsvalue :=
  match net with
  | Responded r =>
      match json_body r with
      | Some (JObj ms) => find_member ms (js "error") None
      | _ => None
      end
  | Rejected _ => None
  end.

Definition text_file : File :=
  {| type := js "text/plain"; size := 12;
     dataURL := Some (js "data:text/plain;base64,AAAA") |}.

Definition limit_photo : File :=
  {| type := js "image/png"; size := 20971520;
     dataURL := Some (js "data:image/png;base64,CCCC") |}.

Definition huge_photo : File :=
  {| type := js "image/png"; size := 20971521;
     dataURL := Some (js "data:image/png;base64,DDDD") |}.

(** The stream made of the given lines, each followed by a newline. *)
Definition unlines (ls : list jsstring) : jsstring :=
  concat (map (fun l => l ++ [LF]) ls).

(** The text a single pass of the inner loop draws from a list of lines:
    the fragments of the lines in order, up to the first line on which the
    loop breaks. *)
Fixpoint text_until_halt (ls : list jsstring) : jsstring :=
  match ls with
  | [] => []
  | l :: ls' =>
      match process_line l with
      | Skipped => text_until_halt ls'
      | Fragment c => c ++ text_until_halt ls'
      | Sentinel | PushedBack _ => []
      end
  end.

(** What a run shows to the outside: the buffer it leaves, the text it
    accumulated and the texts it published, in order. *)
Definition observable (d : decoder) : jsstring * jsstring * list jsstring :=
  (textBuffer d, assistantContent d, map published (updates d)).

(** The line of a stream that carries [s] as a content fragment, in the
    shape the analysis function emits, its JSON written as
    [JSON.stringify] writes it. *)
Definition delta_event (s : jsstring) : jsstring :=
  data_prefix ++ jq "{'choices':[{'delta':{'content':" ++ QuoteJSONString s
    ++ js "}}]}".

(** The payload of such a line and the value it denotes. *)
Definition delta_payload (s : jsstring) : jsstring :=
  jq "{'choices':[{'delta':{'content':" ++ QuoteJSONString s ++ js "}}]}".

Definition delta_value (s : jsstring) : json :=
  JObj [(js "choices",
         JArr [JObj [(js "delta", JObj [(js "content", JStr s)])]])].

(** A complete stream of the analysis function: one event per fragment,
    then the sentinel, each followed by the blank line that ends an
    event. *)
Definition sse_stream (texts : list jsstring) : jsstring :=
  concat (map (fun s => delta_event s ++ [LF; LF]) texts) ++ done_line ++ [LF].

Definition nonempty (s : jsstring) : bool := negb (str_eqb s []).

(** The fragments a single pass of the inner loop publishes on a list of
    lines. *)
Fixpoint fragments_until_halt (ls : list jsstring) : list jsstring :=
  match ls with
  | [] => []
  | l :: ls' =>
      match process_line l with
      | Skipped => fragments_until_halt ls'
      | Fragment c => c :: fragments_until_halt ls'
      | Sentinel | PushedBack _ => []
      end
  end.

(** What the [try] block of a send throws, [None] when it returns. *)
Definition thrown_by (net : fetch_result) : option thrown :=
  match net with
  | Rejected e => Some e
  | Responded r =>
      if http_failed r then Some (http_failure r)
      else match body r with
           | Some b => read_error b
           | None => None
           end
  end.

(** The chunks a send decodes. *)
Definition received (net : fetch_result) : list jsstring :=
  match net with
  | Responded r =>
      match body r with
      | Some b => chunks b
      | None => []
      end
  | Rejected _ => []
  end.

(** A response whose body delivers the given chunks and then ends. *)
Definition streamed (pieces : list jsstring) : fetch_result :=
  Responded {| ok := true;
               body := Some {| chunks := pieces; read_error := None |};
               json_body := None |}.

Definition is_user (m : Message) : bool :=
  match role m with user => true | assistant => false end.

(** A transcript made of turns: a user message with an image, followed or
    not by one assistant message without an image. *)
Fixpoint turns (ms : list Message) : bool :=
  match ms with
  | [] => true
  | m :: rest =>
      is_user m && negb (no_image (imageUrl m)) &&
      match rest with
      | a :: rest' =>
          if is_user a then turns rest
          else match imageUrl a with None => turns rest' | Some _ => false end
      | [] => true
      end
  end.

(** The image and the question a request carries, and those a user
    message shows. *)
Definition sent_pair (r : request) : jsstring * jsstring :=
  (imageBase64 r, match prompt r with Some p => p | None => default_question end).

Definition shown_pair (m : Message) : jsstring * jsstring :=
  (match imageUrl m with Some i => i | None => [] end, content m).

(** The data URL was read from a file that [handleImageSelect] accepts and
    that the user picked during these events. *)
Definition picked_and_accepted (evs : list event) (url : jsstring) : Prop :=
  exists f,
    In (PickFile (Some f)) evs /\
    startsWith (type f) (js "image/") = true /\
    size f <= MAX_SIZE /\
    dataURL f = Some url.

(** * Properties *)

(** ** Strings *)

Lemma indexOf_lower s c : -1 <= indexOf s c.
Proof.
  induction s as [|x s IH]; simpl; [lia|].
  destruct (N.eqb x c); [lia|]. destruct (indexOf s c <? 0) eqn:E; lia.
Qed.

Lemma indexOf_upper s c : indexOf s c < strlen s.
Proof.
  unfold strlen. induction s as [|x s IH]; simpl length; simpl indexOf; [lia|].
  destruct (N.eqb x c); [lia|]. destruct (indexOf s c <? 0) eqn:E; lia.
Qed.

Lemma str_eqb_eq a b : str_eqb a b = true <-> a = b.
Proof.
  revert b. induction a as [|x a IH]; intros [|y b]; simpl; split;
    try congruence; try reflexivity.
  - intros H. apply andb_true_iff in H as [H1 H2].
    apply N.eqb_eq in H1. apply IH in H2. congruence.
  - intros H. injection H as -> ->. rewrite N.eqb_refl. simpl.
    apply IH. reflexivity.
Qed.

Lemma startsWith_app p y : startsWith (p ++ y) p = true.
Proof.
  induction p as [|x p IH]; simpl; [reflexivity|].
  rewrite N.eqb_refl. exact IH.
Qed.

Lemma startsWith_split s p :
  startsWith s p = true -> s = p ++ skipn (length p) s.
Proof.
  revert s. induction p as [|x p IH]; intros s H; simpl in *; [reflexivity|].
  destruct s as [|y s]; [discriminate|].
  apply andb_true_iff in H as [H1 H2]. apply N.eqb_eq in H1. subst y.
  simpl. f_equal. apply IH. exact H2.
Qed.

Lemma slice_from s i : 0 <= i -> slice s i None = skipn (Z.to_nat i) s.
Proof.
  intros Hi. unfold slice, slice_index, strlen.
  destruct (i <? 0) eqn:E; [lia|].
  destruct (Z.min_spec i (Z.of_nat (length s))) as [[Hlt ->]|[Hge ->]].
  - apply firstn_all2. rewrite length_skipn. lia.
  - rewrite Nat2Z.id. rewrite skipn_all. simpl.
    rewrite skipn_all2 by lia. destruct (Z.to_nat _); reflexivity.
Qed.

Lemma slice_to s i :
  0 <= i -> slice s 0 (Some i) = firstn (Z.to_nat i) s.
Proof.
  intros Hi. unfold slice, slice_index, strlen. simpl.
  destruct (i <? 0) eqn:E; [lia|].
  replace (Z.min 0 (Z.of_nat (length s))) with 0 by lia. simpl.
  destruct (Z.min_spec i (Z.of_nat (length s))) as [[Hlt ->]|[Hge ->]].
  - f_equal. lia.
  - rewrite !firstn_all2 by lia. reflexivity.
Qed.

Lemma slice_drop_last s c : slice (s ++ [c]) 0 (Some (-1)) = s.
Proof.
  unfold slice, slice_index, strlen. simpl.
  rewrite length_app. simpl.
  replace (Z.min 0 _) with 0 by lia. simpl.
  replace (Z.to_nat (Z.max _ 0)) with (length s) by lia.
  rewrite firstn_app, Nat.sub_diag, firstn_all. simpl. apply app_nil_r.
Qed.

Lemma indexOf_absent s c : indexOf s c = -1 <-> ~ In c s.
Proof.
  induction s as [|x s IH]; simpl.
  - split; [intros _ []|reflexivity].
  - destruct (N.eqb x c) eqn:E.
    + apply N.eqb_eq in E. split; [lia|]. intros H. exfalso. apply H. now left.
    + apply N.eqb_neq in E. pose proof (indexOf_lower s c).
      destruct (indexOf s c <? 0) eqn:E'.
      * split; [|reflexivity]. intros _ [H1|H1]; [congruence|].
        apply IH in H1; [exact H1|lia].
      * split; [lia|]. intros H1. exfalso.
        assert (indexOf s c = -1) by (apply IH; tauto). lia.
Qed.

Lemma indexOf_found line rest c :
  indexOf line c = -1 -> indexOf (line ++ c :: rest) c = strlen line.
Proof.
  unfold strlen. induction line as [|x line IH]; simpl; intros H.
  - rewrite N.eqb_refl. reflexivity.
  - destruct (N.eqb x c); [lia|].
    pose proof (indexOf_lower line c).
    destruct (indexOf line c <? 0) eqn:E; [|lia].
    rewrite IH by lia. rewrite Zpos_P_of_succ_nat.
    destruct (Z.ltb_spec (Z.of_nat (length line)) 0); lia.
Qed.

(** A buffer with a newline is a first line, the newline, and the rest. *)
Lemma cut_first_line s c :
  indexOf s c <> -1 ->
  exists line rest, s = line ++ c :: rest /\ indexOf line c = -1.
Proof.
  induction s as [|x s IH]; simpl; intros H; [congruence|].
  destruct (N.eqb x c) eqn:E.
  - apply N.eqb_eq in E. subst x. exists [], s. split; reflexivity.
  - destruct (indexOf s c <? 0) eqn:E'; [congruence|].
    destruct IH as (line & rest & -> & Hl).
    { pose proof (indexOf_lower s c). lia. }
    exists (x :: line), rest. split; [reflexivity|].
    simpl. rewrite E, Hl. reflexivity.
Qed.

Lemma slice_first_line line rest c :
  slice (line ++ c :: rest) 0 (Some (strlen line)) = line.
Proof.
  unfold strlen. rewrite slice_to by lia. rewrite Nat2Z.id.
  rewrite firstn_app, Nat.sub_diag, firstn_all. simpl. apply app_nil_r.
Qed.

Lemma slice_after_line line rest c :
  slice (line ++ c :: rest) (strlen line + 1) None = rest.
Proof.
  unfold strlen. rewrite slice_from by lia.
  replace (Z.to_nat _) with (length line + 1)%nat by lia.
  rewrite skipn_app, skipn_all2 by lia.
  replace (length line + 1 - length line)%nat with 1%nat by lia.
  reflexivity.
Qed.

(** Induction over a buffer, one line at a time. *)
Lemma buffer_ind (P : jsstring -> Prop) :
  (forall tail, indexOf tail LF = -1 -> P tail) ->
  (forall line rest, indexOf line LF = -1 -> P rest -> P (line ++ LF :: rest)) ->
  forall buf, P buf.
Proof.
  intros Htail Hline buf.
  remember (length buf) as n eqn:Hn.
  revert buf Hn. induction n as [n IH] using lt_wf_ind. intros buf Hn.
  destruct (Z.eq_dec (indexOf buf LF) (-1)) as [E|E].
  - apply Htail. exact E.
  - destruct (cut_first_line buf LF E) as (line & rest & -> & Hl).
    apply Hline; [exact Hl|].
    apply (IH (length rest)); [|reflexivity].
    subst n. rewrite length_app. simpl. lia.
Qed.

Lemma trimEnd_app_space s c :
  is_js_space c = true -> trimEnd (s ++ [c]) = trimEnd s.
Proof.
  intros Hc. induction s as [|a s IH]; simpl.
  - rewrite Hc. reflexivity.
  - rewrite IH. reflexivity.
Qed.

Lemma trimStart_app_space s c :
  is_js_space c = true ->
  trimStart (s ++ [c]) = match trimStart s with [] => [] | t => t ++ [c] end.
Proof.
  intros Hc. induction s as [|a s IH]; simpl.
  - rewrite Hc. reflexivity.
  - destruct (is_js_space a); [exact IH|reflexivity].
Qed.

Lemma trim_app_space s c : is_js_space c = true -> trim (s ++ [c]) = trim s.
Proof.
  intros Hc. unfold trim. rewrite trimStart_app_space by exact Hc.
  destruct (trimStart s) as [|a t] eqn:E; [reflexivity|].
  change (a :: t ++ [c]) with ((a :: t) ++ [c]).
  apply trimEnd_app_space. exact Hc.
Qed.

(** ** [JSON.parse] does not run out of fuel *)

Lemma skip_ws_length s : (length (skip_ws s) <= length s)%nat.
Proof.
  induction s as [|c s IH]; simpl; [lia|].
  destruct (is_json_ws c); simpl; lia.
Qed.

Lemma skip_ws_cons s c r : skip_ws s = c :: r -> (length r < length s)%nat.
Proof.
  intros H. pose proof (skip_ws_length s) as Hl. rewrite H in Hl.
  simpl in Hl. lia.
Qed.

Lemma parse_chars_length n : forall s acc k r,
  (length s <= n)%nat ->
  parse_chars s acc = Some (k, r) -> (length r < length s)%nat.
Proof.
  induction n as [|n IH]; intros s acc k r Hn H.
  - destruct s; [discriminate|simpl in Hn; lia].
  - destruct s as [|c s]; [discriminate|]. simpl in Hn. simpl in H.
    destruct (c =? 34)%N.
    { injection H as _ <-. simpl. lia. }
    destruct (c =? 92)%N.
    + destruct s as [|e s]; [discriminate|]. simpl in Hn.
      repeat match type of H with
             | (if (e =? 117)%N then _ else _) = _ => fail 1
             | (if ?b then _ else _) = _ =>
                 destruct b; [apply IH in H; simpl in *; lia|]
             end.
      destruct (e =? 117)%N; [|discriminate].
      destruct s as [|a [|b [|x [|y s]]]]; try discriminate.
      destruct (hex4 a b x y); [|discriminate].
      apply IH in H; simpl in *; lia.
    + destruct (c <? 32)%N; [discriminate|].
      apply IH in H; simpl in *; lia.
Qed.

Lemma take_digits_length s : forall v n v' n' r,
  take_digits s v n = (v', n', r) ->
  (length r <= length s)%nat /\
  n' = n + (Z.of_nat (length s) - Z.of_nat (length r)).
Proof.
  induction s as [|c s IH]; intros v n v' n' r H; simpl in H.
  - injection H as _ <- <-. simpl. lia.
  - destruct (digit_val c).
    + apply IH in H. cbn [length]. lia.
    + injection H as _ <- <-. lia.
Qed.

Lemma parse_number_length s v r :
  parse_number s = Some (v, r) -> (length r < length s)%nat.
Proof.
  unfold parse_number.
  set (signed := match s with
                 | c :: r0 => if (c =? 45)%N then (true, r0) else (false, s)
                 | [] => (false, s)
                 end).
  assert (Hs : (length (snd signed) <= length s)%nat).
  { subst signed. destruct s as [|c s]; simpl; [lia|].
    destruct (c =? 45)%N; simpl; lia. }
  destruct signed as [neg s1]. simpl in Hs.
  destruct (take_digits s1 0 0) as [[iv il] s2] eqn:E1.
  apply take_digits_length in E1 as [L1 N1].
  destruct (Z.eqb_spec il 0) as [Z0|Z0]; [discriminate|].
  destruct (_ && _); [discriminate|].
  assert (Hfrac : forall m fl s3,
             match s2 with
             | c :: r0 =>
                 if (c =? 46)%N then
                   let '(fv, fl, s3) := take_digits r0 iv 0 in
                   if fl =? 0 then None else Some (fv, fl, s3)
                 else Some (iv, 0, s2)
             | [] => Some (iv, 0, s2)
             end = Some (m, fl, s3) -> (length s3 <= length s2)%nat).
  { intros m fl s3. destruct s2 as [|c s2]; [intros H; injection H as _ _ <-; lia|].
    destruct (c =? 46)%N; [|intros H; injection H as _ _ <-; lia].
    destruct (take_digits s2 iv 0) as [[fv fl'] s3'] eqn:E2.
    apply take_digits_length in E2 as [L2 _].
    destruct (fl' =? 0); [discriminate|].
    intros H; injection H as _ _ <-. simpl. lia. }
  destruct (match s2 with [] => _ | _ => _ end) as [[[m fl] s3]|]; [|discriminate].
  specialize (Hfrac m fl s3 eq_refl).
  assert (Hexp : forall ev s4,
             match s3 with
             | c :: r0 =>
                 if (c =? 101)%N || (c =? 69)%N then
                   let '(eneg, r') :=
                     match r0 with
                     | g :: r2 =>
                         if (g =? 45)%N then (true, r2)
                         else if (g =? 43)%N then (false, r2)
                         else (false, r0)
                     | [] => (false, r0)
                     end in
                   let '(ev, el, s4) := take_digits r' 0 0 in
                   if el =? 0 then None
                   else Some ((if eneg then - ev else ev), s4)
                 else Some (0, s3)
             | [] => Some (0, s3)
             end = Some (ev, s4) -> (length s4 <= length s3)%nat).
  { intros ev s4. destruct s3 as [|c s3]; [intros H; injection H as _ <-; lia|].
    destruct (_ || _); [|intros H; injection H as _ <-; lia].
    set (sg := match s3 with
               | g :: r2 => if (g =? 45)%N then (true, r2)
                            else if (g =? 43)%N then (false, r2) else (false, s3)
               | [] => (false, s3)
               end).
    assert (Hg : (length (snd sg) <= length s3)%nat).
    { subst sg. destruct s3 as [|g s3]; simpl; [lia|].
      destruct (g =? 45)%N; simpl; [lia|]. destruct (g =? 43)%N; simpl; lia. }
    destruct sg as [eneg r']. simpl in Hg.
    destruct (take_digits r' 0 0) as [[ev' el] s4'] eqn:E3.
    apply take_digits_length in E3 as [L3 _].
    destruct (el =? 0); [discriminate|].
    intros H; injection H as _ <-. simpl. lia. }
  destruct (match s3 with [] => _ | _ => _ end) as [[ev s4]|]; [|discriminate].
  specialize (Hexp ev s4 eq_refl).
  intros H. injection H as _ <-. lia.
Qed.

Lemma expect_length lit v s v' r :
  lit <> [] -> expect lit v s = Some (v', r) -> (length r < length s)%nat.
Proof.
  intros Hl. unfold expect. destruct (startsWith s lit) eqn:E; [|discriminate].
  intros H. injection H as _ <-. apply startsWith_split in E.
  rewrite E at 2. rewrite length_app.
  destruct lit; [contradiction|]. simpl length. lia.
Qed.

(** A successful parse consumes at least one code unit. *)
Lemma parse_value_length n :
  (forall s v r, parse_value n s = Some (v, r) -> (length r < length s)%nat) /\
  (forall s acc v r, parse_elements n s acc = Some (v, r) -> (length r < length s)%nat) /\
  (forall s acc v r, parse_members n s acc = Some (v, r) -> (length r < length s)%nat).
Proof.
  induction n as [|n (IHv & IHe & IHm)]; [repeat split; discriminate|].
  repeat split.
  - intros s v r H. simpl in H.
    pose proof (skip_ws_length s) as Hs.
    destruct (skip_ws s) as [|c t] eqn:Es; [discriminate|]. simpl in Hs.
    destruct (c =? 123)%N.
    { pose proof (skip_ws_length t) as Ht.
      destruct (skip_ws t) as [|d t'] eqn:Et; [discriminate|]. simpl in Ht.
      destruct (d =? 125)%N.
      - injection H as _ <-. lia.
      - apply IHm in H. simpl in H. lia. }
    destruct (c =? 91)%N.
    { pose proof (skip_ws_length t) as Ht.
      destruct (skip_ws t) as [|d t'] eqn:Et; [discriminate|]. simpl in Ht.
      destruct (d =? 93)%N.
      - injection H as _ <-. lia.
      - apply IHe in H. simpl in H. lia. }
    destruct (c =? 34)%N.
    { destruct (parse_chars t []) as [[str t']|] eqn:Ec; [|discriminate].
      apply (parse_chars_length (length t)) in Ec; [|lia].
      injection H as _ <-. lia. }
    destruct (c =? 116)%N.
    { apply expect_length in H; [simpl in H; lia|discriminate]. }
    destruct (c =? 102)%N.
    { apply expect_length in H; [simpl in H; lia|discriminate]. }
    destruct (c =? 110)%N.
    { apply expect_length in H; [simpl in H; lia|discriminate]. }
    apply parse_number_length in H. simpl in H. lia.
  - intros s acc v r H. simpl in H.
    destruct (parse_value n s) as [[v0 t]|] eqn:Ev; [|discriminate].
    apply IHv in Ev.
    pose proof (skip_ws_length t) as Ht.
    destruct (skip_ws t) as [|c t'] eqn:Et; [discriminate|]. simpl in Ht.
    destruct (c =? 44)%N.
    { apply IHe in H. lia. }
    destruct (c =? 93)%N; [|discriminate].
    injection H as _ <-. lia.
  - intros s acc v r H. simpl in H.
    pose proof (skip_ws_length s) as Hs.
    destruct (skip_ws s) as [|q t0] eqn:Es; [discriminate|]. simpl in Hs.
    destruct (q =? 34)%N; [|discriminate].
    destruct (parse_chars t0 []) as [[k t1]|] eqn:Ec; [|discriminate].
    apply (parse_chars_length (length t0)) in Ec; [|lia].
    pose proof (skip_ws_length t1) as Ht1.
    destruct (skip_ws t1) as [|c t2] eqn:Et1; [discriminate|]. simpl in Ht1.
    destruct (c =? 58)%N; [|discriminate].
    destruct (parse_value n t2) as [[v0 t3]|] eqn:Ev; [|discriminate].
    apply IHv in Ev.
    pose proof (skip_ws_length t3) as Ht3.
    destruct (skip_ws t3) as [|d t4] eqn:Et3; [discriminate|]. simpl in Ht3.
    destruct (d =? 44)%N.
    { apply IHm in H. lia. }
    destruct (d =? 125)%N; [|discriminate].
    injection H as _ <-. lia.
Qed.

(** Above two units of fuel per code unit, the amount of fuel does not
    matter: a parse that fails with the fuel [JSON_parse] gives it fails
    with any larger amount, so [None] always stands for a syntax error. *)
Lemma parse_fuel_enough k : forall s, (length s <= k)%nat ->
  (forall n m, (2 * length s + 1 <= n)%nat -> (2 * length s + 1 <= m)%nat ->
     parse_value n s = parse_value m s) /\
  (forall n m acc, (2 * length s + 2 <= n)%nat -> (2 * length s + 2 <= m)%nat ->
     parse_elements n s acc = parse_elements m s acc) /\
  (forall n m acc, (2 * length s + 2 <= n)%nat -> (2 * length s + 2 <= m)%nat ->
     parse_members n s acc = parse_members m s acc).
Proof.
  induction k as [k IH] using lt_wf_ind. intros s Hk.
  assert (IHv : forall t n m, (length t < length s)%nat ->
            (2 * length t + 1 <= n)%nat -> (2 * length t + 1 <= m)%nat ->
            parse_value n t = parse_value m t).
  { intros t n m Ht. apply (IH (length t)); lia. }
  assert (IHe : forall t n m acc, (length t < length s)%nat ->
            (2 * length t + 2 <= n)%nat -> (2 * length t + 2 <= m)%nat ->
            parse_elements n t acc = parse_elements m t acc).
  { intros t n m acc Ht. apply (IH (length t)); lia. }
  assert (IHm : forall t n m acc, (length t < length s)%nat ->
            (2 * length t + 2 <= n)%nat -> (2 * length t + 2 <= m)%nat ->
            parse_members n t acc = parse_members m t acc).
  { intros t n m acc Ht. apply (IH (length t)); lia. }
  clear IH.
  assert (Hv : forall n m, (2 * length s + 1 <= n)%nat -> (2 * length s + 1 <= m)%nat ->
            parse_value n s = parse_value m s).
  { intros [|n] [|m] Hn Hm; try lia. simpl.
    pose proof (skip_ws_length s) as Hs.
    destruct (skip_ws s) as [|c t] eqn:Es; [reflexivity|]. simpl in Hs.
    pose proof (skip_ws_length t) as Ht.
    destruct (c =? 123)%N.
    { destruct (skip_ws t) as [|d t'] eqn:Et; [reflexivity|].
      destruct (d =? 125)%N; [reflexivity|].
      apply IHm; cbn [length] in *; lia. }
    destruct (c =? 91)%N; [|reflexivity].
    destruct (skip_ws t) as [|d t'] eqn:Et; [reflexivity|].
    destruct (d =? 93)%N; [reflexivity|].
    apply IHe; cbn [length] in *; lia. }
  split; [exact Hv|]. split.
  - intros [|n] [|m] acc Hn Hm; try lia. simpl.
    rewrite (Hv n m) by lia.
    destruct (parse_value m s) as [[v t]|] eqn:Ev; [|reflexivity].
    apply (proj1 (parse_value_length m)) in Ev.
    destruct (skip_ws t) as [|c t'] eqn:Et; [reflexivity|].
    apply skip_ws_cons in Et.
    destruct (c =? 44)%N; [|reflexivity].
    apply IHe; lia.
  - intros [|n] [|m] acc Hn Hm; try lia. simpl.
    destruct (skip_ws s) as [|q t0] eqn:Es; [reflexivity|].
    apply skip_ws_cons in Es.
    destruct (q =? 34)%N; [|reflexivity].
    destruct (parse_chars t0 []) as [[key t1]|] eqn:Ec; [|reflexivity].
    apply (parse_chars_length (length t0)) in Ec; [|lia].
    destruct (skip_ws t1) as [|c t2] eqn:Et1; [reflexivity|].
    apply skip_ws_cons in Et1.
    destruct (c =? 58)%N; [|reflexivity].
    rewrite (IHv t2 n m) by lia.
    destruct (parse_value m t2) as [[v t3]|] eqn:Ev; [|reflexivity].
    apply (proj1 (parse_value_length m)) in Ev.
    destruct (skip_ws t3) as [|d t4] eqn:Et3; [reflexivity|].
    apply skip_ws_cons in Et3.
    destruct (d =? 44)%N; [|reflexivity].
    apply IHm; lia.
Qed.

Lemma JSON_parse_fuel text n :
  (2 * length text + 2 <= n)%nat ->
  parse_value n text = parse_value (2 * length text + 2) text.
Proof.
  intros H. apply (proj1 (parse_fuel_enough (length text) text (le_n _))); lia.
Qed.

(** ** The carriage return *)

Lemma endsWith_inv s c : endsWith s [c] = true -> exists s', s = s' ++ [c].
Proof.
  unfold endsWith. simpl. destruct (rev s) as [|y r] eqn:E; [discriminate|].
  intros H. apply andb_true_iff in H as [H _]. apply N.eqb_eq in H. subst y.
  exists (rev r). rewrite <- (rev_involutive s), E. reflexivity.
Qed.

Lemma strip_cr_cases line :
  strip_cr line = line \/ line = strip_cr line ++ [CR].
Proof.
  unfold strip_cr. destruct (endsWith line [CR]) eqn:E; [|left; reflexivity].
  right. apply endsWith_inv in E as [s' ->].
  rewrite slice_drop_last. reflexivity.
Qed.

Lemma strip_cr_no_newline line :
  indexOf line LF = -1 -> indexOf (strip_cr line) LF = -1.
Proof.
  intros H. destruct (strip_cr_cases line) as [->|E]; [exact H|].
  rewrite E in H. apply indexOf_absent in H. apply indexOf_absent.
  intros Hin. apply H. apply in_or_app. left. exact Hin.
Qed.

(** ** The inner loop, one line at a time *)

Lemma drain_body buf acc :
  drain buf acc =
  let newlineIndex := indexOf buf LF in
  if newlineIndex =? -1 then stop buf acc
  else
    let line := slice buf 0 (Some newlineIndex) in
    let rest := slice buf (newlineIndex + 1) None in
    match process_line line with
    | Skipped => drain rest acc
    | Sentinel => stop rest acc
    | Fragment content =>
        let d := drain rest (acc ++ content) in
        {| textBuffer := textBuffer d;
           assistantContent := assistantContent d;
           updates := {| source_line := line; fragment := content;
                         published := acc ++ content |} :: updates d |}
    | PushedBack l => stop (l ++ [LF] ++ rest) acc
    end.
Proof.
  rewrite drain_equation_1.
  unfold drain_unfold_clause_1, inspect. simpl.
  destruct (indexOf buf LF =? -1); reflexivity.
Qed.

Lemma drain_tail tail acc :
  indexOf tail LF = -1 -> drain tail acc = stop tail acc.
Proof. intros H. rewrite drain_body, H. reflexivity. Qed.

Lemma drain_line line rest acc :
  indexOf line LF = -1 ->
  drain (line ++ LF :: rest) acc =
  match process_line line with
  | Skipped => drain rest acc
  | Sentinel => stop rest acc
  | Fragment content =>
      let d := drain rest (acc ++ content) in
      {| textBuffer := textBuffer d;
         assistantContent := assistantContent d;
         updates := {| source_line := line; fragment := content;
                       published := acc ++ content |} :: updates d |}
  | PushedBack l => stop (l ++ LF :: rest) acc
  end.
Proof.
  intros H. rewrite drain_body. cbv zeta.
  rewrite (indexOf_found line rest LF H).
  pose proof (indexOf_upper line LF) as Hu. rewrite H in Hu.
  destruct (Z.eqb_spec (strlen line) (-1)) as [E|_]; [lia|].
  rewrite slice_first_line, slice_after_line. reflexivity.
Qed.

(** ** What a line turns into *)

Lemma process_line_pushed_back x l :
  process_line x = PushedBack l ->
  l = strip_cr x /\ startsWith l data_prefix = true.
Proof.
  unfold process_line, classify_line, parse_event.
  destruct (startsWith (strip_cr x) (js ":") || _); [discriminate|].
  destruct (startsWith (strip_cr x) data_prefix) eqn:Ep; [|discriminate].
  simpl negb. cbv iota.
  destruct (str_eqb _ DONE); [discriminate|].
  destruct (JSON_parse _) as [parsed|].
  - destruct (delta_content parsed) as [c|].
    + destruct (truthy c); [|discriminate].
      destruct c as [c|]; [|discriminate].
      destruct (ToString c); [discriminate|].
      intros H. injection H as <-. split; [reflexivity|exact Ep].
    + intros H. injection H as <-. split; [reflexivity|exact Ep].
  - intros H. injection H as <-. split; [reflexivity|exact Ep].
Qed.

Lemma trim_data_prefix y : trim (data_prefix ++ y) <> [].
Proof.
  unfold trim. change (data_prefix ++ y) with (100%N :: (js "ata: " ++ y)).
  cbn [trimStart]. change (is_js_space 100) with false. cbv iota.
  cbn [trimEnd]. destruct (trimEnd _); discriminate.
Qed.

(** Removing one more carriage return from a line that starts with the
    data prefix changes neither its payload nor what becomes of it. *)
Lemma classify_line_strip_cr l :
  startsWith l data_prefix = true ->
  classify_line (strip_cr l) =
  match classify_line l with
  | PushedBack _ => PushedBack (strip_cr l)
  | o => o
  end.
Proof.
  intros Hp.
  destruct (strip_cr_cases l) as [E|E].
  { rewrite E. destruct (classify_line l) eqn:C; try reflexivity.
    unfold classify_line in C. revert C.
    destruct (_ || _); [discriminate|]. rewrite Hp. simpl negb. cbv iota.
    destruct (str_eqb _ DONE); [discriminate|].
    unfold parse_event.
    destruct (JSON_parse _) as [parsed|]; [|congruence].
    destruct (delta_content parsed) as [c|]; [|congruence].
    destruct (truthy c); [|discriminate].
    destruct c as [c|]; [|discriminate].
    destruct (ToString c); congruence. }
  apply startsWith_split in Hp.
  remember (skipn (length data_prefix) l) as y eqn:Heqy. clear Heqy.
  remember (strip_cr l) as s eqn:Heqs. clear Heqs.
  assert (Hy : exists y', y = y' ++ [CR] /\ s = data_prefix ++ y').
  { rewrite Hp in E. destruct (exists_last (l := y)) as (y' & c & Ey).
    - intros ->. rewrite app_nil_r in E.
      assert (H : last data_prefix 0%N = last (s ++ [CR]) 0%N) by congruence.
      rewrite last_last in H. discriminate.
    - rewrite Ey in E. rewrite app_assoc in E.
      apply app_inj_tail in E as [E1 E2]. subst c.
      exists y'. split; [exact Ey|]. symmetry. exact E1. }
  destruct Hy as (y' & Ey & Es).
  assert (Hsl : forall z, slice (data_prefix ++ z) 6 None = z).
  { intros z. rewrite slice_from by lia. reflexivity. }
  unfold classify_line.
  rewrite Hp, Es.
  rewrite !startsWith_app. rewrite !Hsl.
  change (startsWith (data_prefix ++ ?z) (js ":")) with false.
  destruct (str_eqb (trim (data_prefix ++ y')) []) eqn:T1.
  { apply str_eqb_eq in T1. destruct (trim_data_prefix y' T1). }
  destruct (str_eqb (trim (data_prefix ++ y)) []) eqn:T2.
  { apply str_eqb_eq in T2. destruct (trim_data_prefix y T2). }
  simpl orb. simpl negb. cbv iota.
  rewrite Ey. rewrite trim_app_space by reflexivity.
  destruct (str_eqb (trim y') DONE); [reflexivity|].
  unfold parse_event.
  destruct (JSON_parse _) as [parsed|]; [|reflexivity].
  destruct (delta_content parsed) as [c|]; [|reflexivity].
  destruct (truthy c); [|reflexivity].
  destruct c as [c|]; [|reflexivity].
  destruct (ToString c); reflexivity.
Qed.

(** A line that was pushed back is pushed back again when the loop meets
    it next: the retry cannot succeed. *)
Lemma pushed_back_again x l :
  process_line x = PushedBack l ->
  process_line l = PushedBack (strip_cr l).
Proof.
  intros H. destruct (process_line_pushed_back x l H) as [-> Hp].
  unfold process_line in *. rewrite classify_line_strip_cr by exact Hp.
  rewrite H. reflexivity.
Qed.

(** ** The updates of a run *)

Lemma fragments_app us vs : fragments (us ++ vs) = fragments us ++ fragments vs.
Proof. unfold fragments. rewrite map_app, concat_app. reflexivity. Qed.

Lemma chained_app acc us vs :
  chained acc us -> chained (acc ++ fragments us) vs -> chained acc (us ++ vs).
Proof.
  revert acc. induction us as [|u us IH]; intros acc Hu Hv; simpl in *.
  - rewrite app_nil_r in Hv. exact Hv.
  - destruct Hu as [Hp Hu]. split; [exact Hp|].
    apply IH; [exact Hu|]. rewrite Hp, <- app_assoc. exact Hv.
Qed.

Lemma chained_published acc seen u later :
  chained acc (seen ++ u :: later) ->
  published u = acc ++ fragments (seen ++ [u]).
Proof.
  revert acc. induction seen as [|v seen IH]; intros acc H; simpl in *.
  - destruct H as [H _]. rewrite H. unfold fragments. simpl.
    rewrite app_nil_r. reflexivity.
  - destruct H as [Hv H]. rewrite (IH _ H), Hv.
    unfold fragments. simpl. rewrite app_assoc. reflexivity.
Qed.

Lemma drain_chained buf : forall acc,
  chained acc (updates (drain buf acc)) /\
  assistantContent (drain buf acc) = acc ++ fragments (updates (drain buf acc)).
Proof.
  induction buf as [tail Ht|line rest Hl IH] using buffer_ind; intros acc.
  - rewrite drain_tail by exact Ht. simpl. rewrite app_nil_r. tauto.
  - rewrite drain_line by exact Hl.
    destruct (process_line line) as [| |c|l]; simpl;
      rewrite ?app_nil_r; try tauto.
    + apply IH.
    + destruct (IH (acc ++ c)) as [H1 H2]. repeat split; [exact H1|].
      rewrite H2. unfold fragments. simpl. symmetry. apply app_assoc.
Qed.

Lemma read_loop_chained chunks : forall buf acc,
  chained acc (updates (read_loop chunks buf acc)) /\
  assistantContent (read_loop chunks buf acc) =
    acc ++ fragments (updates (read_loop chunks buf acc)).
Proof.
  induction chunks as [|value chunks IH]; intros buf acc; simpl.
  - rewrite app_nil_r. tauto.
  - destruct (drain_chained (buf ++ value) acc) as [H1 H2].
    destruct (IH (textBuffer (drain (buf ++ value) acc))
                 (assistantContent (drain (buf ++ value) acc))) as [H3 H4].
    split.
    + apply chained_app; [exact H1|]. rewrite <- H2. exact H3.
    + rewrite H4, H2, fragments_app. symmetry. apply app_assoc.
Qed.

Lemma drain_from_fragment buf : forall acc,
  Forall from_fragment (updates (drain buf acc)).
Proof.
  induction buf as [tail Ht|line rest Hl IH] using buffer_ind; intros acc.
  - rewrite drain_tail by exact Ht. constructor.
  - rewrite drain_line by exact Hl.
    destruct (process_line line) as [| |c|l] eqn:E; simpl;
      try constructor; try apply IH.
    exact E.
Qed.

Lemma read_loop_from_fragment chunks : forall buf acc,
  Forall from_fragment (updates (read_loop chunks buf acc)).
Proof.
  induction chunks as [|value chunks IH]; intros buf acc; simpl.
  - constructor.
  - apply Forall_app. split; [apply drain_from_fragment|apply IH].
Qed.

Lemma skipped_line line :
  startsWith (strip_cr line) (js ":") = true \/ trim (strip_cr line) = [] ->
  process_line line = Skipped.
Proof.
  intros H. unfold process_line, classify_line.
  destruct H as [-> | ->]; [reflexivity|].
  rewrite orb_true_r. reflexivity.
Qed.

(** ** The transcript under streaming updates *)

Lemma replace_at_last before m x :
  replace_at (length before) x (before ++ [m]) = before ++ [x].
Proof. induction before as [|y before IH]; simpl; [|rewrite IH]; reflexivity. Qed.

Lemma set_last_snoc before m x : set_last x (before ++ [m]) = before ++ [x].
Proof.
  unfold set_last. rewrite length_app. simpl.
  destruct (Z.ltb_spec (Z.of_nat (length before + 1) - 1) 0); [lia|].
  replace (Z.to_nat _) with (length before) by lia.
  apply replace_at_last.
Qed.

Lemma publish_snoc acc before m : publish acc (before ++ [m]) = before ++ [answer acc].
Proof. unfold publish. apply set_last_snoc. Qed.

Lemma apply_updates_snoc us u st :
  apply_updates (us ++ [u]) st =
  setMessages (publish (published u)) (apply_updates us st).
Proof. unfold apply_updates. rewrite fold_left_app. reflexivity. Qed.

Lemma apply_updates_messages us : forall st before m,
  messages st = before ++ [m] ->
  messages (apply_updates us st) =
  before ++ [match rev us with [] => m | u :: _ => answer (published u) end].
Proof.
  induction us as [|u us IH] using rev_ind; intros st before m H.
  - exact H.
  - rewrite apply_updates_snoc, rev_app_distr. simpl.
    rewrite (IH st before m H). apply publish_snoc.
Qed.

Lemma apply_updates_frame us : forall st,
  let st' := apply_updates us st in
  input st' = input st /\ selectedImage st' = selectedImage st /\
  isLoading st' = isLoading st /\ fileInput st' = fileInput st /\
  toasts st' = toasts st /\ requests st' = requests st.
Proof.
  induction us as [|u us IH]; intros st; simpl; [tauto|].
  apply (IH (setMessages (publish (published u)) st)).
Qed.

(** ** Streams, line by line *)

Lemma lines_from_line line : forall rest current,
  indexOf line LF = -1 ->
  lines_from (line ++ LF :: rest) current =
  (rev current ++ line) :: lines_from rest [].
Proof.
  induction line as [|c line IH]; intros rest current H; simpl.
  - rewrite app_nil_r. reflexivity.
  - simpl in H. destruct (N.eqb c LF) eqn:E; [discriminate|].
    rewrite IH.
    + simpl. rewrite <- app_assoc. reflexivity.
    + destruct (indexOf line LF <? 0) eqn:E'; [|pose proof (indexOf_lower line LF); lia].
      pose proof (indexOf_lower line LF). apply Z.ltb_lt in E'. lia.
Qed.

Lemma lines_from_tail tail : forall current,
  indexOf tail LF = -1 -> lines_from tail current = [].
Proof.
  induction tail as [|c tail IH]; intros current H; simpl; [reflexivity|].
  simpl in H. destruct (N.eqb c LF); [discriminate|].
  apply IH. pose proof (indexOf_lower tail LF).
  destruct (Z.ltb_spec (indexOf tail LF) 0); lia.
Qed.

Lemma complete_lines_line line rest :
  indexOf line LF = -1 ->
  complete_lines (line ++ LF :: rest) = line :: complete_lines rest.
Proof. intros H. unfold complete_lines. rewrite lines_from_line by exact H. reflexivity. Qed.

Lemma complete_lines_tail tail :
  indexOf tail LF = -1 -> complete_lines tail = [].
Proof. apply lines_from_tail. Qed.

Lemma app_line line rest y : (line ++ LF :: rest) ++ y = line ++ LF :: (rest ++ y).
Proof. rewrite <- app_assoc. reflexivity. Qed.

(** While the loop does not break, draining a buffer and then what
    arrives next is draining both at once. *)
Lemma drain_app_running x : forall acc y,
  halts (complete_lines x) = false ->
  drain (x ++ y) acc =
  combine_runs (drain x acc)
    (drain (textBuffer (drain x acc) ++ y) (assistantContent (drain x acc))).
Proof.
  induction x as [tail Ht|line rest Hl IH] using buffer_ind; intros acc y Hh.
  - rewrite (drain_tail tail) by exact Ht. simpl.
    destruct (drain (tail ++ y) acc). reflexivity.
  - rewrite complete_lines_line in Hh by exact Hl. simpl in Hh.
    rewrite app_line, !drain_line by exact Hl.
    destruct (process_line line) as [| |c|l]; try discriminate.
    + apply IH. exact Hh.
    + cbv zeta. rewrite (IH (acc ++ c) y Hh). reflexivity.
Qed.

Lemma drain_running_tail x : forall acc,
  halts (complete_lines x) = false ->
  indexOf (textBuffer (drain x acc)) LF = -1.
Proof.
  induction x as [tail Ht|line rest Hl IH] using buffer_ind; intros acc Hh.
  - rewrite drain_tail by exact Ht. exact Ht.
  - rewrite complete_lines_line in Hh by exact Hl. simpl in Hh.
    rewrite drain_line by exact Hl.
    destruct (process_line line) as [| |c|l]; try discriminate.
    + apply IH. exact Hh.
    + apply (IH (acc ++ c)). exact Hh.
Qed.

Lemma calm_running x : forall acc y,
  halts (complete_lines x) = false ->
  calm_after_sentinel (complete_lines (textBuffer (drain x acc) ++ y)) =
  calm_after_sentinel (complete_lines (x ++ y)).
Proof.
  induction x as [tail Ht|line rest Hl IH] using buffer_ind; intros acc y Hh.
  - rewrite drain_tail by exact Ht. reflexivity.
  - rewrite complete_lines_line in Hh by exact Hl. simpl in Hh.
    rewrite app_line, complete_lines_line, drain_line by exact Hl.
    simpl. destruct (process_line line) as [| |c|l]; try discriminate.
    + apply IH. exact Hh.
    + apply (IH (acc ++ c)). exact Hh.
Qed.

(** Once the loop has left by [break], what arrives next is only appended
    to the buffer. *)
Lemma drain_app_halted x : forall acc y,
  halts (complete_lines x) = true ->
  drain (x ++ y) acc =
  {| textBuffer := textBuffer (drain x acc) ++ y;
     assistantContent := assistantContent (drain x acc);
     updates := updates (drain x acc) |}.
Proof.
  induction x as [tail Ht|line rest Hl IH] using buffer_ind; intros acc y Hh.
  - rewrite complete_lines_tail in Hh by exact Ht. discriminate.
  - rewrite complete_lines_line in Hh by exact Hl. simpl in Hh.
    rewrite app_line, !drain_line by exact Hl.
    destruct (process_line line) as [| |c|l].
    + apply IH. exact Hh.
    + reflexivity.
    + cbv zeta. rewrite (IH (acc ++ c) y Hh). reflexivity.
    + simpl. unfold stop. rewrite app_line. reflexivity.
Qed.

Lemma halted_tail x : forall acc y,
  halts (complete_lines x) = true ->
  calm_after_sentinel (complete_lines (x ++ y)) = true ->
  stuck (textBuffer (drain x acc)) \/
  forallb is_quiet (complete_lines (textBuffer (drain x acc) ++ y)) = true.
Proof.
  induction x as [tail Ht|line rest Hl IH] using buffer_ind; intros acc y Hh Hc.
  - rewrite complete_lines_tail in Hh by exact Ht. discriminate.
  - rewrite complete_lines_line in Hh by exact Hl. simpl in Hh.
    rewrite app_line, complete_lines_line in Hc by exact Hl. simpl in Hc.
    rewrite drain_line by exact Hl.
    destruct (process_line line) as [| |c|l] eqn:E.
    + apply IH; assumption.
    + right. exact Hc.
    + apply (IH (acc ++ c)); assumption.
    + left. simpl. exists l, rest, (strip_cr l).
      destruct (process_line_pushed_back line l E) as [El _].
      repeat split.
      * rewrite El. apply strip_cr_no_newline. exact Hl.
      * apply (pushed_back_again line). exact E.
Qed.

Lemma quiet_drain (x : jsstring) : forall acc y,
  forallb is_quiet (complete_lines (x ++ y)) = true ->
  assistantContent (drain x acc) = acc /\ updates (drain x acc) = [] /\
  forallb is_quiet (complete_lines (textBuffer (drain x acc) ++ y)) = true.
Proof.
  induction x as [tail Ht|line rest Hl IH] using buffer_ind; intros acc y Hq.
  - rewrite drain_tail by exact Ht. simpl. tauto.
  - rewrite app_line, complete_lines_line in Hq by exact Hl. simpl in Hq.
    apply andb_true_iff in Hq as [Hq1 Hq2].
    rewrite drain_line by exact Hl. unfold is_quiet in Hq1.
    destruct (process_line line) as [| |c|l] eqn:E; try discriminate.
    + apply IH. exact Hq2.
    + simpl. tauto.
    + simpl. repeat split.
      destruct (process_line_pushed_back line l E) as [El _].
      rewrite app_line, complete_lines_line
        by (rewrite El; apply strip_cr_no_newline; exact Hl).
      simpl. rewrite Hq2. unfold is_quiet.
      rewrite (pushed_back_again line l E). reflexivity.
Qed.

Lemma quiet_read_loop chunks : forall buf acc,
  forallb is_quiet (complete_lines (buf ++ concat chunks)) = true ->
  assistantContent (read_loop chunks buf acc) = acc /\
  updates (read_loop chunks buf acc) = [].
Proof.
  induction chunks as [|value chunks IH]; intros buf acc Hq; simpl.
  - tauto.
  - simpl in Hq. rewrite app_assoc in Hq.
    destruct (quiet_drain (buf ++ value) acc (concat chunks) Hq) as (Ha & Hu & Hq').
    destruct (IH _ (assistantContent (drain (buf ++ value) acc)) Hq') as [Ha' Hu'].
    rewrite Ha', Hu', Hu, Ha. tauto.
Qed.

Lemma stuck_read_loop chunks : forall buf acc,
  stuck buf ->
  assistantContent (read_loop chunks buf acc) = acc /\
  updates (read_loop chunks buf acc) = [].
Proof.
  induction chunks as [|value chunks IH]; intros buf acc Hs; simpl.
  - tauto.
  - destruct Hs as (line & rest & l & -> & Hl & E).
    rewrite app_line, drain_line by exact Hl. rewrite E. simpl.
    apply IH. exists l, (rest ++ value), (strip_cr l).
    destruct (process_line_pushed_back line l E) as [El _].
    repeat split.
    + rewrite El. apply strip_cr_no_newline. exact Hl.
    + apply (pushed_back_again line). exact E.
Qed.

(** The outer loop over any chunking reaches the same text, through the
    same updates, as one pass of the inner loop over the whole stream. *)
Lemma read_loop_as_one_pass chunks : forall buf acc,
  indexOf buf LF = -1 ->
  calm_after_sentinel (complete_lines (buf ++ concat chunks)) = true ->
  assistantContent (read_loop chunks buf acc) =
    assistantContent (drain (buf ++ concat chunks) acc) /\
  updates (read_loop chunks buf acc) =
    updates (drain (buf ++ concat chunks) acc).
Proof.
  induction chunks as [|value chunks IH]; intros buf acc Hb Hc; simpl.
  - rewrite app_nil_r, drain_tail by exact Hb. tauto.
  - simpl in Hc. rewrite app_assoc in *.
    set (d := drain (buf ++ value) acc) in *.
    destruct (halts (complete_lines (buf ++ value))) eqn:Hh.
    + rewrite (drain_app_halted _ acc (concat chunks) Hh). simpl. fold d.
      assert (Hq : assistantContent (read_loop chunks (textBuffer d) (assistantContent d))
                   = assistantContent d /\
                   updates (read_loop chunks (textBuffer d) (assistantContent d)) = []).
      { destruct (halted_tail _ acc (concat chunks) Hh Hc) as [Hs|Hq].
        - apply stuck_read_loop. exact Hs.
        - apply quiet_read_loop. exact Hq. }
      destruct Hq as [-> ->]. rewrite app_nil_r. tauto.
    + rewrite (drain_app_running _ acc (concat chunks) Hh). simpl. fold d.
      destruct (IH (textBuffer d) (assistantContent d)) as [Ha Hu].
      * apply drain_running_tail. exact Hh.
      * unfold d. rewrite calm_running by exact Hh. exact Hc.
      * rewrite Ha, Hu. tauto.
Qed.

Lemma is_skipped_quiet ls : forallb is_skipped ls = true -> forallb is_quiet ls = true.
Proof.
  induction ls as [|l ls IH]; simpl; [reflexivity|].
  intros H. apply andb_true_iff in H as [H1 H2].
  rewrite (IH H2), andb_true_r. unfold is_skipped in H1. unfold is_quiet.
  destruct (process_line l); congruence.
Qed.

Lemma well_formed_calm ls :
  well_formed_lines ls = true -> calm_after_sentinel ls = true.
Proof.
  induction ls as [|l ls IH]; simpl; [reflexivity|].
  destruct (process_line l); try exact IH; try reflexivity.
  apply is_skipped_quiet.
Qed.

(** ** The decoder: the sentinel, chunking, malformed lines *)

(** C1.  The sentinel ends the inner loop only: the outer loop goes on
    reading, and the next chunk starts the inner loop again on whatever
    the buffer holds.  Here a fragment that arrives in the chunk after the
    sentinel, and a fragment that sat in the buffer behind the sentinel
    until one more newline arrived, both reach the accumulator and the
    transcript. *)
Theorem sentinel_does_not_end_decoding :
  assistantContent (decode [done_line; cat_event]) = js "cat" /\
  map published (updates (decode [done_line; cat_event])) = [js "cat"] /\
  assistantContent (decode [done_line ++ cat_event]) = [] /\
  assistantContent (decode [done_line ++ cat_event; [LF]]) = js "cat" /\
  map published (updates (decode [done_line ++ cat_event; [LF]])) = [js "cat"].
Proof. vm_compute. repeat split; reflexivity. Qed.

(** C2.  For every well-formed stream and every way of cutting it into
    chunks, the decoder ends with the same accumulated text, reached
    through the same updates, as on the whole stream in one chunk. *)
Theorem chunking_does_not_change_the_text (stream : jsstring) (pieces : list jsstring) :
  well_formed stream = true ->
  concat pieces = stream ->
  assistantContent (decode pieces) = assistantContent (decode [stream]) /\
  updates (decode pieces) = updates (decode [stream]).
Proof.
  intros Hw <-. unfold decode.
  assert (Hc : forall pcs,
             concat pcs = concat pieces ->
             calm_after_sentinel (complete_lines ([] ++ concat pcs)) = true).
  { intros pcs ->. apply well_formed_calm. exact Hw. }
  destruct (read_loop_as_one_pass pieces [] [] eq_refl (Hc pieces eq_refl)) as [-> ->].
  assert (Hone : concat [concat pieces] = concat pieces) by apply app_nil_r.
  destruct (read_loop_as_one_pass [concat pieces] [] [] eq_refl (Hc _ Hone)) as [Ha Hu].
  rewrite Ha, Hu, Hone. tauto.
Qed.

Lemma chunking_does_not_change_the_text_witness :
  well_formed (concat sample_stream_pieces) = true /\
  assistantContent (decode sample_stream_pieces) = js "a cat" /\
  assistantContent (decode [concat sample_stream_pieces]) = js "a cat".
Proof.
  split; [vm_compute; reflexivity|].
  destruct (chunking_does_not_change_the_text
              (concat sample_stream_pieces) sample_stream_pieces) as [H _].
  - vm_compute. reflexivity.
  - reflexivity.
  - rewrite <- H. split; vm_compute; reflexivity.
Defined.

(** C3.  When [JSON.parse] fails on the payload of an extracted [data]
    line, the inner loop stops with the line (as it stands after its
    carriage return was removed) and a newline put back in front of the
    rest of the buffer; the accumulator is untouched and nothing is
    published, whatever follows in the buffer.  And the event cut in the
    middle of [content] by a chunk boundary accumulates [cat]. *)
Theorem parse_failure_pushes_the_line_back :
  (forall line rest acc,
     indexOf line LF = -1 ->
     startsWith (strip_cr line) data_prefix = true ->
     trim (slice (strip_cr line) 6 None) <> DONE ->
     JSON_parse (trim (slice (strip_cr line) 6 None)) = None ->
     drain (line ++ LF :: rest) acc =
     {| textBuffer := strip_cr line ++ [LF] ++ rest;
        assistantContent := acc;
        updates := [] |}) /\
  assistantContent (decode [split_event_first; split_event_second]) = js "cat".
Proof.
  split; [|vm_compute; reflexivity].
  intros line rest acc Hl Hp Hd Hj.
  rewrite drain_line by exact Hl.
  unfold process_line, classify_line, parse_event.
  rewrite Hp, Hj.
  apply startsWith_split in Hp. rewrite Hp at 1 2.
  change (startsWith (data_prefix ++ ?z) (js ":")) with false.
  destruct (str_eqb (trim (data_prefix ++ _)) []) eqn:T.
  { apply str_eqb_eq in T. destruct (trim_data_prefix _ T). }
  destruct (str_eqb _ DONE) eqn:D.
  { apply str_eqb_eq in D. contradiction. }
  reflexivity.
Qed.

Lemma parse_failure_pushes_the_line_back_witness :
  drain (jq "data: {'choices':[{'delta':{'con" ++ [CR] ++ LF :: cat_event) (js "so far") =
  {| textBuffer := jq "data: {'choices':[{'delta':{'con" ++ [LF] ++ cat_event;
     assistantContent := js "so far";
     updates := [] |}.
Proof.
  apply (proj1 parse_failure_pushes_the_line_back
           (jq "data: {'choices':[{'delta':{'con" ++ [CR]) cat_event (js "so far")).
  - vm_compute. reflexivity.
  - vm_compute. reflexivity.
  - vm_compute. discriminate.
  - vm_compute. reflexivity.
Defined.

(** C6.  One streaming update replaces the last transcript element by the
    assistant message whose content is the accumulator and leaves the
    elements before it alone.  After any update of a run, the last
    element holds the concatenation, in decoding order, of all fragments
    decoded so far; during a send that is the transcript before the send,
    the user message and the answer so far.  The accumulator at the end
    of a run is the concatenation of all its fragments. *)
Theorem updates_publish_the_whole_answer :
  (forall acc before c,
     publish acc (before ++ [{| role := assistant; content := c; imageUrl := None |}]) =
     before ++ [{| role := assistant; content := acc; imageUrl := None |}]) /\
  (forall pieces seen u later st before c,
     updates (decode pieces) = seen ++ u :: later ->
     messages st = before ++ [{| role := assistant; content := c; imageUrl := None |}] ->
     published u = concat (map fragment (seen ++ [u])) /\
     messages (apply_updates (seen ++ [u]) st) =
       before ++ [{| role := assistant;
                     content := concat (map fragment (seen ++ [u]));
                     imageUrl := None |}]) /\
  (forall st img pieces seen u later,
     updates (decode pieces) = seen ++ u :: later ->
     messages (apply_updates (seen ++ [u]) (at_try st img)) =
       messages st ++
       [userMessage st img;
        {| role := assistant;
           content := concat (map fragment (seen ++ [u]));
           imageUrl := None |}]) /\
  (forall pieces,
     assistantContent (decode pieces) = concat (map fragment (updates (decode pieces)))).
Proof.
  assert (Hrun : forall pieces seen u later st before c,
     updates (decode pieces) = seen ++ u :: later ->
     messages st = before ++ [{| role := assistant; content := c; imageUrl := None |}] ->
     published u = concat (map fragment (seen ++ [u])) /\
     messages (apply_updates (seen ++ [u]) st) =
       before ++ [{| role := assistant;
                     content := concat (map fragment (seen ++ [u]));
                     imageUrl := None |}]).
  { intros pieces seen u later st before c Hu Hm.
    destruct (read_loop_chained pieces [] []) as [Hc _]. fold (decode pieces) in Hc.
    rewrite Hu in Hc. apply chained_published in Hc. simpl in Hc.
    split; [exact Hc|].
    rewrite (apply_updates_messages _ st before _ Hm).
    rewrite rev_app_distr. simpl. unfold answer.
    rewrite Hc. reflexivity. }
  split; [|split; [exact Hrun|split]].
  2: { intros st img pieces seen u later Hu.
       destruct (Hrun pieces seen u later (at_try st img)
                   (messages st ++ [userMessage st img]) [] Hu) as [_ H].
       - reflexivity.
       - rewrite H, <- app_assoc. reflexivity. }
  - intros acc before c. apply publish_snoc.
  - intros pieces. destruct (read_loop_chained pieces [] []) as [_ Ha].
    exact Ha.
Qed.

Lemma updates_publish_the_whole_answer_witness :
  messages
    (apply_updates (updates (decode [cat_event; cat_event]))
       {| messages := [assistantMessage]; input := []; selectedImage := None;
          isLoading := true; fileInput := None; toasts := []; requests := [] |}) =
  [{| role := assistant; content := js "catcat"; imageUrl := None |}].
Proof.
  refine (proj2 (proj1 (proj2 updates_publish_the_whole_answer)
            [cat_event; cat_event]
            [{| source_line := removelast cat_event; fragment := js "cat";
                published := js "cat" |}]
            {| source_line := removelast cat_event; fragment := js "cat";
               published := js "catcat" |}
            [] _ [] [] _ _)).
  - vm_compute. reflexivity.
  - reflexivity.
Defined.

(** C7.  A line that starts with a colon, or that is blank once its
    carriage return is removed, leaves the decoder exactly where it would
    be without the line: same accumulator, same updates, same buffer.  And
    in every run over every chunk sequence, no update comes from such a
    line. *)
Theorem comments_and_blank_lines_add_nothing :
  (forall line rest acc,
     indexOf line LF = -1 ->
     startsWith (strip_cr line) (js ":") = true \/ trim (strip_cr line) = [] ->
     drain (line ++ LF :: rest) acc = drain rest acc) /\
  (forall pieces u,
     In u (updates (decode pieces)) ->
     startsWith (strip_cr (source_line u)) (js ":") = false /\
     trim (strip_cr (source_line u)) <> []).
Proof.
  split.
  - intros line rest acc Hl Hs.
    rewrite drain_line by exact Hl. rewrite (skipped_line line Hs). reflexivity.
  - intros pieces u Hin.
    pose proof (read_loop_from_fragment pieces [] []) as Hf.
    rewrite Forall_forall in Hf. specialize (Hf u Hin). unfold from_fragment in Hf.
    destruct (startsWith (strip_cr (source_line u)) (js ":")) eqn:E.
    { rewrite skipped_line in Hf by (left; exact E). discriminate. }
    split; [reflexivity|]. intros T.
    rewrite skipped_line in Hf by (right; exact T). discriminate.
Qed.

Lemma comments_and_blank_lines_add_nothing_witness :
  drain (js ": keep-alive" ++ [CR] ++ LF :: cat_event) (js "a ") =
  drain cat_event (js "a ") /\
  drain ([CR] ++ LF :: cat_event) (js "a ") = drain cat_event (js "a ").
Proof.
  split.
  - apply (proj1 comments_and_blank_lines_add_nothing
             (js ": keep-alive" ++ [CR]) cat_event (js "a ")).
    + vm_compute. reflexivity.
    + left. vm_compute. reflexivity.
  - apply (proj1 comments_and_blank_lines_add_nothing [CR] cat_event (js "a ")).
    + vm_compute. reflexivity.
    + right. vm_compute. reflexivity.
Defined.

(** ** The send state machine *)

Lemma handleSend_with_image net st c img :
  selectedImage st = Some (c :: img) ->
  handleSend net st =
  setIsLoading false
    match try_block (c :: img) (input st) net (at_try st (c :: img)) with
    | (st', None) => st'
    | (st', Some error) =>
        setMessages slice_last (toast_error (error_text error) st')
    end.
Proof. intros H. unfold handleSend. rewrite H. reflexivity. Qed.

Lemma slice_last_snoc before m : slice_last (before ++ [m]) = before.
Proof.
  unfold slice_last. rewrite length_app. simpl.
  replace (length before + 1 - 1)%nat with (length before) by lia.
  rewrite firstn_app, Nat.sub_diag, firstn_all. simpl. apply app_nil_r.
Qed.

(** What the [try] block does to the page, apart from the outcome. *)
Lemma try_block_page img typed net st before m :
  messages st = before ++ [m] ->
  let st' := fst (try_block img typed net st) in
  (exists m', messages st' = before ++ [m']) /\
  input st' = input st /\ isLoading st' = isLoading st /\
  toasts st' = toasts st /\
  requests st' =
    requests st ++ [{| imageBase64 := img;
                       prompt := match trim typed with [] => None | t => Some t end |}].
Proof.
  intros Hm. unfold try_block.
  destruct net as [e|r]; simpl.
  { repeat split; try reflexivity. exists m. exact Hm. }
  destruct (ok r); [destruct (body r) as [b|]|]; simpl;
    try (repeat split; try reflexivity; exists m; exact Hm).
  set (us := updates (decode (chunks b))).
  set (st1 := fetch_post _ st).
  destruct (apply_updates_frame us st1) as (Hi & Hs & Hl & Hf & Ht & Hr).
  pose proof (apply_updates_messages us st1 before m Hm) as Hmsg.
  destruct (read_error b); simpl; rewrite ?Hi, ?Hl, ?Ht, ?Hr;
    (repeat split; try reflexivity; eexists; exact Hmsg).
Qed.

(** What the [try] block throws, and what it does to the selection. *)
Lemma try_block_outcome img typed net st :
  let '(st', thrown) := try_block img typed net st in
  match net with
  | Rejected e => thrown = Some e
  | Responded r =>
      if http_failed r then thrown = Some (http_failure r)
      else
        match body r with
        | Some b => thrown = read_error b
        | None => False
        end
  end /\
  match thrown with
  | Some _ => selectedImage st' = selectedImage st /\ fileInput st' = fileInput st
  | None =>
      selectedImage st' = None /\
      fileInput st' = match fileInput st with Some _ => Some [] | None => None end
  end.
Proof.
  unfold try_block, http_failed.
  destruct net as [e|r]; simpl; [tauto|].
  destruct (ok r); [destruct (body r) as [b|]|]; simpl; try tauto.
  destruct (apply_updates_frame (updates (decode (chunks b)))
              (fetch_post {| imageBase64 := img;
                             prompt := match trim typed with [] => None | t => Some t end |} st))
    as (Hi & Hs & Hl & Hf & Ht & Hr).
  destruct (read_error b); simpl.
  - rewrite Hs, Hf. tauto.
  - rewrite Hf. tauto.
Qed.

Lemma send_fails_throws img typed net st :
  send_fails net = true -> exists e, snd (try_block img typed net st) = Some e.
Proof.
  intros Hf. pose proof (try_block_outcome img typed net st) as H.
  destruct (try_block img typed net st) as [st' t]. destruct H as [H _].
  unfold send_fails in Hf. simpl.
  destruct net as [e|r]; [eauto|].
  destruct (http_failed r); [eauto|].
  destruct (body r) as [b|]; [|contradiction].
  simpl in Hf. destruct (read_error b); [eauto|discriminate].
Qed.

Lemma send_succeeds_returns img typed net st :
  send_fails net = false -> snd (try_block img typed net st) = None.
Proof.
  intros Hf. pose proof (try_block_outcome img typed net st) as H.
  destruct (try_block img typed net st) as [st' t]. destruct H as [H _].
  unfold send_fails in Hf. simpl.
  destruct net as [e|r]; [discriminate|].
  destruct (http_failed r); [discriminate|].
  destruct (body r) as [b|]; [|contradiction].
  simpl in Hf. destruct (read_error b); [discriminate|exact H].
Qed.

(** C4, as stated, fails: a read that rejects while the stream is decoded
    is a failure without any [error] member from the server, and the text
    shown is the message of the exception, not the generic one. *)
Lemma decode_exception_shows_its_own_message :
  send_fails broken_stream = true /\
  server_error broken_stream = None /\
  toasts (handleSend broken_stream sample_page) = [Text (js "network error")] /\
  Text (js "network error") <> Text generic_failure.
Proof. vm_compute. repeat split; try reflexivity. discriminate. Qed.

(** C4, amended.  When the request fails, the transcript afterwards is the
    one before the send followed by the user message, sending is enabled
    again, and exactly one error text is shown.  For a response with a
    non-success status or without a body it is the [error] member of the
    response JSON when that is a non-empty string, and the generic message
    when the JSON cannot be read or is an object without that member.  For
    a rejected fetch or a read that rejects during decoding it is the
    message of the exception when that is an [Error], and the generic
    message otherwise. *)
Theorem failed_send_rolls_back_and_reports (net : fetch_result) (st : page)
    (c : N) (img : jsstring) :
  selectedImage st = Some (c :: img) ->
  send_fails net = true ->
  let st' := handleSend net st in
  messages st' = messages st ++ [userMessage st (c :: img)] /\
  isLoading st' = false /\
  exists shown,
    toasts st' = toasts st ++ [shown] /\
    (forall r, net = Responded r -> http_failed r = true ->
       (forall ms s, json_body r = Some (JObj ms) ->
          find_member ms (js "error") None = Some (JStr s) -> s <> [] ->
          shown = Text s) /\
       (json_body r = None -> shown = Text generic_failure) /\
       (forall ms, json_body r = Some (JObj ms) ->
          find_member ms (js "error") None = None ->
          shown = Text generic_failure)) /\
    (forall e, net = Rejected e -> shown = error_text e) /\
    (forall r b e, net = Responded r -> http_failed r = false ->
       body r = Some b -> read_error b = Some e -> shown = error_text e).
Proof.
  intros Hsel Hfail st'. subst st'.
  rewrite (handleSend_with_image net st c img Hsel).
  set (img' := c :: img).
  assert (Hm : messages (at_try st img') =
               (messages st ++ [userMessage st img']) ++ [assistantMessage])
    by reflexivity.
  pose proof (try_block_page img' (input st) net (at_try st img') _ _ Hm) as Hp.
  pose proof (try_block_outcome img' (input st) net (at_try st img')) as Ho.
  destruct (send_fails_throws img' (input st) net (at_try st img') Hfail) as [e He].
  destruct (try_block img' (input st) net (at_try st img')) as [st1 t].
  simpl in He. subst t. simpl in Hp.
  destruct Hp as ([m' Hm'] & _ & _ & Ht & _). destruct Ho as [Ho _].
  simpl. rewrite Hm', slice_last_snoc, Ht.
  split; [reflexivity|]. split; [reflexivity|].
  exists (error_text e). split; [reflexivity|].
  split; [|split].
  - intros r -> Hh. rewrite Hh in Ho. injection Ho as ->.
    unfold http_failure. repeat split.
    + intros ms s -> Hf Hs. simpl. rewrite Hf. simpl.
      destruct s; [contradiction|reflexivity].
    + intros ->. reflexivity.
    + intros ms -> Hf. simpl. rewrite Hf. reflexivity.
  - intros e' ->. injection Ho as ->. reflexivity.
  - intros r b e' -> Hh Hb Hr. rewrite Hh, Hb, Hr in Ho.
    injection Ho as ->. reflexivity.
Qed.

Lemma failed_send_rolls_back_and_reports_witness :
  messages (handleSend rate_limited sample_page) =
    messages sample_page ++
    [{| role := user; content := js "what breed?";
        imageUrl := Some (js "data:image/jpeg;base64,BBBB") |}] /\
  isLoading (handleSend rate_limited sample_page) = false /\
  toasts (handleSend rate_limited sample_page) = [Text (js "rate limited")].
Proof.
  destruct (failed_send_rolls_back_and_reports rate_limited sample_page
              (ch "d") (js "ata:image/jpeg;base64,BBBB") eq_refl eq_refl)
    as (Hm & Hl & shown & Ht & Hhttp & _).
  split; [exact Hm|]. split; [exact Hl|].
  rewrite Ht. simpl. f_equal.
  destruct (Hhttp _ eq_refl eq_refl) as (Hs & _).
  apply (Hs [(js "error", JStr (js "rate limited"))] (js "rate limited")).
  - vm_compute. reflexivity.
  - vm_compute. reflexivity.
  - discriminate.
Defined.

(** C5.  With no image selected the send stops at validation, whatever
    the input holds: the transcript is unchanged, no request is issued,
    one validation message is shown, and nothing else on the page
    changes. *)
Theorem send_without_image_is_rejected (net : fetch_result) (st : page) :
  selectedImage st = None ->
  let st' := handleSend net st in
  messages st' = messages st /\
  requests st' = requests st /\
  toasts st' = toasts st ++
    [Text (if str_eqb (trim (input st)) []
           then js "Please upload an image or enter a message"
           else js "Please upload an image to analyze")] /\
  input st' = input st /\ selectedImage st' = selectedImage st /\
  isLoading st' = isLoading st /\ fileInput st' = fileInput st.
Proof.
  intros H. unfold handleSend. rewrite H. simpl.
  destruct (str_eqb (trim (input st)) []); simpl; rewrite ?H; tauto.
Qed.

Lemma send_without_image_is_rejected_witness :
  messages (handleSend good_stream (setSelectedImage None sample_page)) =
    messages sample_page /\
  requests (handleSend good_stream (setSelectedImage None sample_page)) = [] /\
  toasts (handleSend good_stream (setSelectedImage None sample_page)) =
    [Text (js "Please upload an image to analyze")].
Proof.
  destruct (send_without_image_is_rejected good_stream
              (setSelectedImage None sample_page) eq_refl)
    as (Hm & Hr & Ht & _).
  split; [exact Hm|]. split; [exact Hr|]. exact Ht.
Defined.

(** C8.  A file whose declared type does not start with [image/], or
    whose size is above 20 MiB, is turned down: one message is shown and
    the selection, the transcript, the requests and the rest of the page
    stay as they are.  A file declared as an image and within the limit
    becomes the selected image, as the data URL read from it. *)
Theorem image_selection_is_validated (f : File) (st : page) :
  MAX_SIZE = 20971520 /\
  (startsWith (type f) (js "image/") = false \/ MAX_SIZE < size f ->
   let st' := handleImageSelect (Some f) st in
   selectedImage st' = selectedImage st /\ messages st' = messages st /\
   requests st' = requests st /\ input st' = input st /\
   isLoading st' = isLoading st /\ fileInput st' = fileInput st /\
   exists shown, toasts st' = toasts st ++ [Text shown]) /\
  (startsWith (type f) (js "image/") = true -> size f <= MAX_SIZE ->
   forall url, dataURL f = Some url ->
   let st' := handleImageSelect (Some f) st in
   selectedImage st' = Some url /\ messages st' = messages st /\
   requests st' = requests st /\ toasts st' = toasts st /\
   input st' = input st /\ isLoading st' = isLoading st /\
   fileInput st' = fileInput st).
Proof.
  split; [reflexivity|]. unfold handleImageSelect. split.
  - intros H.
    destruct (startsWith (type f) (js "image/")) eqn:E; simpl.
    + destruct H as [H|H]; [discriminate|].
      apply Z.ltb_lt in H. rewrite H. simpl. repeat split. eexists. reflexivity.
    + repeat split. eexists. reflexivity.
  - intros Ht Hs url Hu. rewrite Ht. simpl.
    destruct (Z.ltb_spec MAX_SIZE (size f)); [lia|].
    rewrite Hu. simpl. tauto.
Qed.

Lemma image_selection_is_validated_witness :
  selectedImage (handleImageSelect (Some text_file) sample_page) =
    selectedImage sample_page /\
  selectedImage (handleImageSelect (Some huge_photo) sample_page) =
    selectedImage sample_page /\
  selectedImage (handleImageSelect (Some limit_photo) sample_page) =
    Some (js "data:image/png;base64,CCCC").
Proof.
  split; [|split].
  - apply (proj1 (proj2 (image_selection_is_validated text_file sample_page))).
    left. reflexivity.
  - apply (proj1 (proj2 (image_selection_is_validated huge_photo sample_page))).
    right. reflexivity.
  - apply (proj2 (proj2 (image_selection_is_validated limit_photo sample_page))).
    + reflexivity.
    + discriminate.
    + reflexivity.
Defined.

(** C9.  A send that proceeds appends a user message right after the old
    transcript and issues one request.  When the input trims to nothing,
    the message asks the default question and the request carries no
    prompt; otherwise message and prompt are both the trimmed input. *)
Theorem default_question_and_prompt (net : fetch_result) (st : page)
    (c : N) (img : jsstring) :
  selectedImage st = Some (c :: img) ->
  let st' := handleSend net st in
  exists sent after,
    messages st' = messages st ++ sent :: after /\
    role sent = user /\ imageUrl sent = Some (c :: img) /\
    exists asked,
      requests st' = requests st ++ [asked] /\
      imageBase64 asked = c :: img /\
      (trim (input st) = [] ->
       content sent = js "What's in this image?" /\ prompt asked = None) /\
      (trim (input st) <> [] ->
       content sent = trim (input st) /\ prompt asked = Some (trim (input st))).
Proof.
  intros Hsel st'. subst st'.
  rewrite (handleSend_with_image net st c img Hsel).
  set (img' := c :: img).
  assert (Hm : messages (at_try st img') =
               (messages st ++ [userMessage st img']) ++ [assistantMessage])
    by reflexivity.
  pose proof (try_block_page img' (input st) net (at_try st img') _ _ Hm) as Hp.
  destruct (try_block img' (input st) net (at_try st img')) as [st1 t].
  simpl in Hp. destruct Hp as ([m' Hm'] & _ & _ & _ & Hr).
  exists (userMessage st img').
  exists (match t with Some _ => [] | None => [m'] end).
  split.
  { destruct t; simpl; rewrite Hm'.
    - apply slice_last_snoc.
    - rewrite <- app_assoc. reflexivity. }
  split; [reflexivity|]. split; [reflexivity|].
  exists (analysis_request st img'). split.
  { destruct t; simpl; exact Hr. }
  split; [reflexivity|]. unfold userMessage, analysis_request. simpl.
  destruct (trim (input st)); split; intros H; try congruence; tauto.
Qed.

Lemma default_question_and_prompt_witness :
  exists after,
    messages (handleSend good_stream (setInput (js "  ") sample_page)) =
      messages sample_page ++
      {| role := user; content := js "What's in this image?";
         imageUrl := Some (js "data:image/jpeg;base64,BBBB") |} :: after /\
    requests (handleSend good_stream (setInput (js "  ") sample_page)) =
      [{| imageBase64 := js "data:image/jpeg;base64,BBBB"; prompt := None |}].
Proof.
  destruct (default_question_and_prompt good_stream (setInput (js "  ") sample_page)
              (ch "d") (js "ata:image/jpeg;base64,BBBB") eq_refl)
    as (sent & after & Hm & Hr & Hi & asked & Hq & Hb & Hempty & _).
  destruct (Hempty eq_refl) as [Hc Hp].
  exists after. split.
  - rewrite Hm. destruct sent as [r0 c0 i0]. simpl in *. subst. reflexivity.
  - rewrite Hq. destruct asked as [b0 p0]. simpl in *. subst. reflexivity.
Defined.

(** C10.  A send that fails leaves the selected image and the file input
    as they were; a send whose stream completes clears the selected image
    and empties the file input. *)
Theorem selection_kept_on_failure_cleared_on_success (net : fetch_result)
    (st : page) (c : N) (img : jsstring) :
  selectedImage st = Some (c :: img) ->
  let st' := handleSend net st in
  (send_fails net = true ->
   selectedImage st' = Some (c :: img) /\ fileInput st' = fileInput st) /\
  (send_fails net = false ->
   selectedImage st' = None /\
   fileInput st' = match fileInput st with Some _ => Some [] | None => None end).
Proof.
  intros Hsel st'. subst st'.
  rewrite (handleSend_with_image net st c img Hsel).
  set (img' := c :: img).
  pose proof (try_block_outcome img' (input st) net (at_try st img')) as Ho.
  pose proof (send_fails_throws img' (input st) net (at_try st img')) as Hf.
  pose proof (send_succeeds_returns img' (input st) net (at_try st img')) as Hs.
  destruct (try_block img' (input st) net (at_try st img')) as [st1 t].
  simpl in Hf, Hs. destruct Ho as [_ Ho]. split; intros H.
  - destruct (Hf H) as [e ->]. simpl. destruct Ho as [-> ->]. simpl.
    split; [exact Hsel|reflexivity].
  - rewrite (Hs H) in *. simpl. exact Ho.
Qed.

Lemma selection_kept_on_failure_cleared_on_success_witness :
  selectedImage (handleSend rate_limited sample_page) =
    Some (js "data:image/jpeg;base64,BBBB") /\
  fileInput (handleSend rate_limited sample_page) = fileInput sample_page /\
  selectedImage (handleSend good_stream sample_page) = None /\
  fileInput (handleSend good_stream sample_page) = Some [].
Proof.
  destruct (selection_kept_on_failure_cleared_on_success rate_limited sample_page
              (ch "d") (js "ata:image/jpeg;base64,BBBB") eq_refl) as [Hf _].
  destruct (selection_kept_on_failure_cleared_on_success good_stream sample_page
              (ch "d") (js "ata:image/jpeg;base64,BBBB") eq_refl) as [_ Hs].
  destruct (Hf eq_refl) as [H1 H2]. destruct (Hs eq_refl) as [H3 H4].
  repeat split; assumption.
Defined.


(** * Further properties of the decoder *)

Lemma indexOf_app_inv a b c :
  indexOf (a ++ b) c = -1 -> indexOf a c = -1 /\ indexOf b c = -1.
Proof.
  rewrite !indexOf_absent. intros H. split; intros Hin; apply H;
    apply in_or_app; tauto.
Qed.

Lemma indexOf_app_none a b c :
  indexOf a c = -1 -> indexOf b c = -1 -> indexOf (a ++ b) c = -1.
Proof.
  rewrite !indexOf_absent. intros Ha Hb H. apply in_app_or in H. tauto.
Qed.

Lemma decode_one_chunk s : decode [s] = drain s [].
Proof.
  unfold decode. simpl. destruct (drain s []) as [b a u]. simpl.
  rewrite app_nil_r. reflexivity.
Qed.

Lemma stuck_after_push_back line l rest :
  indexOf line LF = -1 ->
  process_line line = PushedBack l ->
  stuck (l ++ LF :: rest).
Proof.
  intros Hl Hp. exists l, rest, (strip_cr l).
  destruct (process_line_pushed_back line l Hp) as [El _].
  repeat split.
  - rewrite El. apply strip_cr_no_newline. exact Hl.
  - apply (pushed_back_again line). exact Hp.
Qed.

(** X1.  A line that is pushed back blocks the decoder for good: whatever
    chunks arrive afterwards, the accumulator keeps its value and nothing
    is published, even when the rest of the stream is made of sound
    events. *)
Theorem pushed_back_line_blocks_the_stream (line l rest acc : jsstring)
    (pieces : list jsstring) :
  indexOf line LF = -1 ->
  process_line line = PushedBack l ->
  assistantContent (read_loop pieces (line ++ LF :: rest) acc) = acc /\
  updates (read_loop pieces (line ++ LF :: rest) acc) = [] /\
  assistantContent (decode ((line ++ LF :: rest) :: pieces)) = [] /\
  updates (decode ((line ++ LF :: rest) :: pieces)) = [].
Proof.
  intros Hl Hp.
  assert (Hs : stuck (line ++ LF :: rest)) by (exists line, rest, l; tauto).
  destruct (stuck_read_loop pieces _ acc Hs) as [Ha Hu].
  split; [exact Ha|]. split; [exact Hu|].
  unfold decode. simpl. rewrite drain_line by exact Hl. rewrite Hp. simpl.
  apply stuck_read_loop. apply (stuck_after_push_back line); assumption.
Qed.

Lemma pushed_back_line_blocks_the_stream_witness :
  assistantContent
    (decode [jq "data: {'choices':[{'delta':{'content':'lost" ++ LF :: cat_event;
             cat_event; cat_event ++ done_line]) = [] /\
  updates
    (decode [jq "data: {'choices':[{'delta':{'content':'lost" ++ LF :: cat_event;
             cat_event; cat_event ++ done_line]) = [].
Proof.
  destruct (pushed_back_line_blocks_the_stream
              (jq "data: {'choices':[{'delta':{'content':'lost")
              (jq "data: {'choices':[{'delta':{'content':'lost")
              cat_event [] [cat_event; cat_event ++ done_line])
    as (_ & _ & Ha & Hu).
  - vm_compute. reflexivity.
  - vm_compute. reflexivity.
  - split; [exact Ha|exact Hu].
Defined.

Lemma read_loop_without_newline pieces : forall buf acc,
  indexOf (buf ++ concat pieces) LF = -1 ->
  read_loop pieces buf acc = stop (buf ++ concat pieces) acc.
Proof.
  induction pieces as [|value pieces IH]; intros buf acc H; simpl.
  - rewrite app_nil_r. reflexivity.
  - simpl in H. rewrite app_assoc in H.
    destruct (indexOf_app_inv _ _ _ H) as [Hb _].
    rewrite drain_tail by exact Hb. simpl.
    rewrite (IH _ acc H). simpl. rewrite <- app_assoc. reflexivity.
Qed.

(** X2.  As long as no newline has arrived nothing is decoded: the bytes
    received so far all sit in the buffer, the accumulator is empty and
    nothing was published, however the bytes were cut into chunks. *)
Theorem nothing_is_decoded_before_a_newline (pieces : list jsstring) :
  indexOf (concat pieces) LF = -1 ->
  decode pieces =
  {| textBuffer := concat pieces; assistantContent := []; updates := [] |}.
Proof. intros H. apply (read_loop_without_newline pieces [] [] H). Qed.

Lemma nothing_is_decoded_before_a_newline_witness :
  decode [jq "data: {'choices':[{'delta':"; jq "{'content':'cat'}}]}"] =
  {| textBuffer := jq "data: {'choices':[{'delta':{'content':'cat'}}]}";
     assistantContent := []; updates := [] |}.
Proof.
  apply (nothing_is_decoded_before_a_newline
           [jq "data: {'choices':[{'delta':"; jq "{'content':'cat'}}]}"]).
  vm_compute. reflexivity.
Defined.

Lemma drain_app_tail (s : jsstring) : forall acc tail,
  indexOf tail LF = -1 ->
  drain (s ++ tail) acc =
  {| textBuffer := textBuffer (drain s acc) ++ tail;
     assistantContent := assistantContent (drain s acc);
     updates := updates (drain s acc) |}.
Proof.
  induction s as [t Ht|line rest Hl IH] using buffer_ind; intros acc tail Htail.
  - rewrite (drain_tail t) by exact Ht.
    rewrite drain_tail by (apply indexOf_app_none; assumption). reflexivity.
  - rewrite app_line, !drain_line by exact Hl.
    destruct (process_line line) as [| |c|l].
    + apply IH. exact Htail.
    + reflexivity.
    + cbv zeta. rewrite (IH (acc ++ c) tail Htail). reflexivity.
    + simpl. unfold stop. rewrite app_line. reflexivity.
Qed.

(** X3.  Bytes after the last newline of a body are never decoded: a body
    that ends in a line without its newline gives the same text and the
    same updates as the body without that line, and the line is what the
    buffer is left with in addition.  An event that the server does not
    terminate with a newline before closing the stream is lost. *)
Theorem unterminated_last_line_is_not_decoded (body tail : jsstring) :
  indexOf tail LF = -1 ->
  assistantContent (decode [body ++ tail]) = assistantContent (decode [body]) /\
  updates (decode [body ++ tail]) = updates (decode [body]) /\
  textBuffer (decode [body ++ tail]) = textBuffer (decode [body]) ++ tail.
Proof.
  intros H. rewrite !decode_one_chunk, (drain_app_tail body [] tail H).
  simpl. tauto.
Qed.

Lemma unterminated_last_line_is_not_decoded_witness :
  assistantContent
    (decode [cat_event ++ jq "data: {'choices':[{'delta':{'content':' sat'}}]}"]) =
  js "cat".
Proof.
  destruct (unterminated_last_line_is_not_decoded cat_event
              (jq "data: {'choices':[{'delta':{'content':' sat'}}]}")) as [H _].
  - vm_compute. reflexivity.
  - rewrite H. vm_compute. reflexivity.
Defined.

Lemma strip_cr_added l :
  strip_cr (l ++ [CR]) = l.
Proof.
  unfold strip_cr. unfold endsWith. rewrite rev_app_distr. simpl.
  apply slice_drop_last.
Qed.

(** X4.  A line ended by a carriage return and a newline is decoded as
    the same line ended by a newline alone: the same buffer is left, the
    same text accumulated, the same texts published. *)
Theorem crlf_is_decoded_as_lf (line rest acc : jsstring) :
  indexOf line LF = -1 ->
  endsWith line [CR] = false ->
  observable (drain (line ++ [CR; LF] ++ rest) acc) =
  observable (drain (line ++ [LF] ++ rest) acc).
Proof.
  intros Hl Hc.
  change (line ++ [CR; LF] ++ rest) with (line ++ [CR] ++ LF :: rest).
  change (line ++ [LF] ++ rest) with (line ++ LF :: rest).
  rewrite app_assoc.
  assert (Hl' : indexOf (line ++ [CR]) LF = -1)
    by (apply indexOf_app_none; [exact Hl|reflexivity]).
  rewrite !drain_line by assumption.
  unfold process_line. rewrite strip_cr_added.
  unfold strip_cr. rewrite Hc.
  destruct (classify_line line); reflexivity.
Qed.

Lemma crlf_is_decoded_as_lf_witness :
  observable (drain (removelast cat_event ++ [CR; LF] ++ done_line) (js "a ")) =
  observable (drain (removelast cat_event ++ [LF] ++ done_line) (js "a ")).
Proof.
  apply (crlf_is_decoded_as_lf (removelast cat_event) done_line (js "a "));
    vm_compute; reflexivity.
Defined.

(** X5.  Only lines that start with the six code units of the data prefix
    are looked at: any other line, a field such as [event] or [id] but
    also a data field written without the space after the colon, leaves
    the decoder exactly where it would be without the line. *)
Theorem lines_without_the_data_prefix_are_dropped (line rest acc : jsstring) :
  indexOf line LF = -1 ->
  startsWith (strip_cr line) data_prefix = false ->
  drain (line ++ LF :: rest) acc = drain rest acc.
Proof.
  intros Hl Hp. rewrite drain_line by exact Hl.
  unfold process_line, classify_line. rewrite Hp.
  destruct (_ || _); reflexivity.
Qed.

Lemma lines_without_the_data_prefix_are_dropped_witness :
  drain (jq "data:{'choices':[{'delta':{'content':'cat'}}]}" ++ LF :: cat_event) [] =
  drain cat_event [] /\
  drain (js "event: message" ++ LF :: cat_event) [] = drain cat_event [].
Proof.
  split.
  - apply (lines_without_the_data_prefix_are_dropped
             (jq "data:{'choices':[{'delta':{'content':'cat'}}]}") cat_event []);
      vm_compute; reflexivity.
  - apply (lines_without_the_data_prefix_are_dropped
             (js "event: message") cat_event []);
      vm_compute; reflexivity.
Defined.

Lemma trimStart_spaces pre x :
  forallb is_js_space pre = true -> trimStart (pre ++ x) = trimStart x.
Proof.
  induction pre as [|c pre IH]; simpl; intros H; [reflexivity|].
  apply andb_true_iff in H as [H1 H2]. rewrite H1. apply IH. exact H2.
Qed.

Lemma trimEnd_spaces x post :
  forallb is_js_space post = true -> trimEnd (x ++ post) = trimEnd x.
Proof.
  induction post as [|c post IH] using rev_ind; intros H.
  - rewrite app_nil_r. reflexivity.
  - rewrite forallb_app in H. apply andb_true_iff in H as [H1 H2].
    simpl in H2. rewrite andb_true_r in H2.
    rewrite app_assoc, trimEnd_app_space by exact H2. apply IH. exact H1.
Qed.

Lemma sentinel_line pre post :
  forallb is_js_space pre = true ->
  forallb is_js_space post = true ->
  process_line (data_prefix ++ pre ++ DONE ++ post) = Sentinel.
Proof.
  intros Hpre Hpost. unfold process_line.
  assert (Hs : exists post',
             strip_cr (data_prefix ++ pre ++ DONE ++ post) =
             data_prefix ++ pre ++ DONE ++ post' /\
             forallb is_js_space post' = true).
  { destruct (strip_cr_cases (data_prefix ++ pre ++ DONE ++ post)) as [E|E].
    - exists post. split; assumption.
    - remember (strip_cr (data_prefix ++ pre ++ DONE ++ post)) as s eqn:Heqs.
      clear Heqs.
      destruct (exists_last (l := post)) as (p' & c & Ep).
      + intros ->. rewrite app_nil_r in E.
        change DONE with (js "[DONE" ++ [93%N]) in E.
        rewrite !app_assoc in E. apply app_inj_tail in E as [_ E].
        discriminate.
      + rewrite Ep in E. rewrite !app_assoc in E.
        apply app_inj_tail in E as [E _].
        exists p'. split.
        * rewrite <- E, <- !app_assoc. reflexivity.
        * rewrite Ep, forallb_app in Hpost.
          apply andb_true_iff in Hpost as [H _]. exact H. }
  destruct Hs as (post' & -> & Hpost').
  unfold classify_line.
  change (startsWith (data_prefix ++ ?z) (js ":")) with false.
  rewrite startsWith_app.
  destruct (str_eqb (trim (data_prefix ++ _)) []) eqn:T.
  { apply str_eqb_eq in T. destruct (trim_data_prefix _ T). }
  simpl orb. simpl negb. cbv iota.
  rewrite slice_from by lia.
  change (skipn (Z.to_nat 6) (data_prefix ++ ?z)) with z.
  unfold trim. rewrite trimStart_spaces by exact Hpre.
  change (trimStart (DONE ++ post')) with (DONE ++ post').
  rewrite trimEnd_spaces by exact Hpost'. reflexivity.
Qed.

(** X6.  The sentinel is recognised whatever white space stands between
    the data prefix and [[DONE]] and after it, a carriage return
    included; the pass stops there, with the accumulator as it was and
    the rest of the buffer untouched. *)
Theorem sentinel_may_be_padded (pre post rest acc : jsstring) :
  forallb is_js_space pre = true ->
  forallb is_js_space post = true ->
  indexOf pre LF = -1 ->
  indexOf post LF = -1 ->
  drain (data_prefix ++ pre ++ DONE ++ post ++ LF :: rest) acc =
  {| textBuffer := rest; assistantContent := acc; updates := [] |}.
Proof.
  intros Hpre Hpost Lpre Lpost.
  replace (data_prefix ++ pre ++ DONE ++ post ++ LF :: rest)
    with ((data_prefix ++ pre ++ DONE ++ post) ++ LF :: rest)
    by (rewrite <- !app_assoc; reflexivity).
  rewrite drain_line.
  - rewrite sentinel_line by assumption. reflexivity.
  - repeat apply indexOf_app_none; try assumption; reflexivity.
Qed.

Lemma sentinel_may_be_padded_witness :
  drain (data_prefix ++ js "  " ++ DONE ++ js " " ++ [CR] ++ LF :: cat_event) (js "cat") =
  {| textBuffer := cat_event; assistantContent := js "cat"; updates := [] |}.
Proof.
  apply (sentinel_may_be_padded (js "  ") (js " " ++ [CR]) cat_event (js "cat"));
    vm_compute; reflexivity.
Defined.

Lemma drain_unlines ls : forall acc rest,
  Forall (fun l => indexOf l LF = -1) ls ->
  halts ls = false ->
  drain (unlines ls ++ rest) acc =
  combine_runs (drain (unlines ls) acc)
    (drain rest (assistantContent (drain (unlines ls) acc))).
Proof.
  induction ls as [|l ls IH]; intros acc rest Hf Hh.
  - change (unlines []) with (@nil N).
    rewrite (drain_tail [] acc eq_refl). simpl.
    destruct (drain rest acc). reflexivity.
  - inversion Hf as [|? ? Hl Hf']; subst. simpl in Hh.
    unfold unlines. simpl. fold (unlines ls).
    rewrite <- !app_assoc. simpl. rewrite !drain_line by exact Hl.
    destruct (process_line l) as [| |c|p]; try discriminate.
    + apply IH; assumption.
    + cbv zeta. rewrite (IH (acc ++ c) rest Hf' Hh). reflexivity.
Qed.

(** X7.  In a body that arrives as one chunk the sentinel does end the
    decoding: whatever follows the sentinel line, events included, the
    text and the updates are those of the lines before it, and what
    follows stays in the buffer. *)
Theorem one_chunk_stops_at_the_sentinel (ls : list jsstring)
    (line rest : jsstring) :
  Forall (fun l => indexOf l LF = -1) ls ->
  halts ls = false ->
  indexOf line LF = -1 ->
  process_line line = Sentinel ->
  assistantContent (decode [unlines ls ++ line ++ LF :: rest]) =
    assistantContent (decode [unlines ls]) /\
  updates (decode [unlines ls ++ line ++ LF :: rest]) =
    updates (decode [unlines ls]) /\
  textBuffer (decode [unlines ls ++ line ++ LF :: rest]) = rest.
Proof.
  intros Hf Hh Hl Hs. rewrite !decode_one_chunk.
  rewrite (drain_unlines ls [] _ Hf Hh).
  rewrite drain_line by exact Hl. rewrite Hs. simpl.
  rewrite app_nil_r. tauto.
Qed.

Lemma one_chunk_stops_at_the_sentinel_witness :
  assistantContent
    (decode [unlines [removelast cat_event; []] ++ js "data: [DONE]" ++ LF :: cat_event]) =
  js "cat" /\
  textBuffer
    (decode [unlines [removelast cat_event; []] ++ js "data: [DONE]" ++ LF :: cat_event]) =
  cat_event.
Proof.
  destruct (one_chunk_stops_at_the_sentinel [removelast cat_event; []]
              (js "data: [DONE]") cat_event) as (Ha & _ & Hb).
  - repeat constructor.
  - vm_compute. reflexivity.
  - vm_compute. reflexivity.
  - vm_compute. reflexivity.
  - split; [rewrite Ha; vm_compute; reflexivity|exact Hb].
Defined.

Lemma drain_text buf : forall acc,
  assistantContent (drain buf acc) = acc ++ text_until_halt (complete_lines buf).
Proof.
  induction buf as [tail Ht|line rest Hl IH] using buffer_ind; intros acc.
  - rewrite drain_tail, complete_lines_tail by exact Ht. simpl.
    rewrite app_nil_r. reflexivity.
  - rewrite drain_line, complete_lines_line by exact Hl. simpl.
    destruct (process_line line) as [| |c|l]; simpl; rewrite ?app_nil_r;
      try reflexivity.
    + apply IH.
    + rewrite IH, <- app_assoc. reflexivity.
Qed.

Lemma calm_stream_text (pieces : list jsstring) :
  calm_after_sentinel (complete_lines (concat pieces)) = true ->
  assistantContent (decode pieces) =
  text_until_halt (complete_lines (concat pieces)).
Proof.
  intros Hc. unfold decode.
  destruct (read_loop_as_one_pass pieces [] [] eq_refl Hc) as [-> _].
  apply (drain_text (concat pieces) []).
Qed.

(** X8.  The decoder computes a function of the lines of the stream: when
    no line after the first sentinel carries a fragment, the text
    accumulated over any chunking is the concatenation of the fragments
    of the complete lines, in order, up to the first sentinel or the first
    line that is pushed back. *)
Theorem decoded_text_is_the_text_of_the_lines (pieces : list jsstring) :
  calm_after_sentinel (complete_lines (concat pieces)) = true ->
  assistantContent (decode pieces) =
  text_until_halt (complete_lines (concat pieces)).
Proof. exact (calm_stream_text pieces). Qed.

Lemma decoded_text_is_the_text_of_the_lines_witness :
  assistantContent (decode sample_stream_pieces) =
  text_until_halt (complete_lines (concat sample_stream_pieces)) /\
  text_until_halt (complete_lines (concat sample_stream_pieces)) = js "a cat".
Proof.
  split.
  - apply (decoded_text_is_the_text_of_the_lines sample_stream_pieces).
    vm_compute. reflexivity.
  - vm_compute. reflexivity.
Defined.

Lemma read_loop_extends_one_pass pieces : forall buf acc,
  indexOf buf LF = -1 ->
  exists more,
    updates (read_loop pieces buf acc) =
      updates (drain (buf ++ concat pieces) acc) ++ more /\
    assistantContent (read_loop pieces buf acc) =
      assistantContent (drain (buf ++ concat pieces) acc) ++ fragments more.
Proof.
  induction pieces as [|value pieces IH]; intros buf acc Hb; simpl.
  - exists []. rewrite !app_nil_r, drain_tail by exact Hb. tauto.
  - rewrite app_assoc.
    set (d := drain (buf ++ value) acc).
    destruct (halts (complete_lines (buf ++ value))) eqn:Hh.
    + rewrite (drain_app_halted _ acc (concat pieces) Hh). simpl. fold d.
      destruct (read_loop_chained pieces (textBuffer d) (assistantContent d))
        as [_ Ha].
      exists (updates (read_loop pieces (textBuffer d) (assistantContent d))).
      split; [reflexivity|exact Ha].
    + rewrite (drain_app_running _ acc (concat pieces) Hh). simpl. fold d.
      destruct (IH (textBuffer d) (assistantContent d)) as (more & Hu & Ha).
      { apply drain_running_tail. exact Hh. }
      exists more. rewrite Hu, Ha, <- app_assoc. tauto.
Qed.

(** X9.  Cutting a body into chunks never loses text: over any stream and
    any chunking, the updates of the one-chunk run come first, unchanged,
    and the accumulated text starts with the one-chunk text; what a
    chunking can add is fragments that follow a sentinel. *)
Theorem chunking_never_loses_text (pieces : list jsstring) :
  exists more,
    updates (decode pieces) = updates (decode [concat pieces]) ++ more /\
    assistantContent (decode pieces) =
      assistantContent (decode [concat pieces]) ++ concat (map fragment more).
Proof.
  rewrite decode_one_chunk.
  apply (read_loop_extends_one_pass pieces [] [] eq_refl).
Qed.

(** * The request body *)

Lemma hex_digit_val d : (d < 16)%N -> hex_val (hex_digit d) = Some d.
Proof.
  intros H.
  assert (Hc : In d [0;1;2;3;4;5;6;7;8;9;10;11;12;13;14;15]%N).
  { destruct d as [|p]; [now left|].
    do 4 (destruct p as [p|p|]; try lia; simpl; try tauto). }
  simpl in Hc.
  repeat (destruct Hc as [<-|Hc]; [reflexivity|]). destruct Hc.
Qed.

Lemma hex4_escape c :
  (c < 65536)%N ->
  hex4 (hex_digit ((c / 4096) mod 16)) (hex_digit ((c / 256) mod 16))
       (hex_digit ((c / 16) mod 16)) (hex_digit (c mod 16)) = Some c.
Proof.
  intros H. unfold hex4.
  rewrite !hex_digit_val by (apply N.mod_lt; discriminate).
  f_equal. zify. Z.to_euclidean_division_equations. lia.
Qed.

Lemma parse_chars_escape c r acc :
  (c < 65536)%N ->
  parse_chars (unicode_escape c ++ r) acc = parse_chars r (c :: acc).
Proof.
  intros H. unfold unicode_escape. cbn [app].
  cbn -[hex4 hex_digit N.div N.modulo]. rewrite hex4_escape by exact H.
  reflexivity.
Qed.

Lemma parse_chars_plain c r acc :
  c <> 34%N -> c <> 92%N -> (32 <= c)%N ->
  parse_chars (c :: r) acc = parse_chars r (c :: acc).
Proof.
  intros H1 H2 H3. cbn [parse_chars].
  destruct (N.eqb_spec c 34); [contradiction|].
  destruct (N.eqb_spec c 92); [contradiction|].
  destruct (N.ltb_spec c 32); [lia|]. reflexivity.
Qed.

Lemma parse_chars_quote_unit c r acc :
  parse_chars (quote_unit c ++ r) acc = parse_chars r (c :: acc).
Proof.
  unfold quote_unit.
  repeat match goal with
         | |- context [if (c =? ?k)%N then _ else _] =>
             destruct (N.eqb_spec c k); [subst c; reflexivity|]
         end.
  destruct (N.ltb_spec c 32).
  - apply parse_chars_escape. lia.
  - apply parse_chars_plain; assumption.
Qed.

(** What [JSON.parse] reads between two quotes is what [JSON.stringify]
    wrote there. *)
Lemma parse_chars_quote n : forall s r acc,
  (length s <= n)%nat ->
  parse_chars (quote_units s ++ 34%N :: r) acc = Some (rev acc ++ s, r).
Proof.
  induction n as [|n IH]; intros s r acc Hn.
  - destruct s; [|simpl in Hn; lia]. simpl. rewrite app_nil_r. reflexivity.
  - destruct s as [|c s]; [simpl; rewrite app_nil_r; reflexivity|].
    simpl in Hn. cbn [quote_units].
    assert (Hcons : forall (a : jsstring) x t, rev (x :: a) ++ t = rev a ++ x :: t).
    { intros a x t. simpl. rewrite <- app_assoc. reflexivity. }
    destruct (is_leading_surrogate c) eqn:Ec.
    + unfold is_leading_surrogate in Ec. apply andb_true_iff in Ec as [E1 E2].
      apply N.leb_le in E1, E2.
      destruct s as [|d s].
      * rewrite parse_chars_escape by lia. reflexivity.
      * destruct (is_trailing_surrogate d) eqn:Ed.
        -- unfold is_trailing_surrogate in Ed.
           apply andb_true_iff in Ed as [D1 D2]. apply N.leb_le in D1, D2.
           cbn [app]. rewrite !parse_chars_plain by lia.
           rewrite IH by (simpl in Hn; lia).
           rewrite !Hcons. reflexivity.
        -- rewrite <- app_assoc, parse_chars_escape by lia.
           rewrite IH by lia. rewrite Hcons. reflexivity.
    + destruct (is_trailing_surrogate c) eqn:Et.
      * unfold is_trailing_surrogate in Et.
        apply andb_true_iff in Et as [E1 E2]. apply N.leb_le in E1, E2.
        rewrite <- app_assoc, parse_chars_escape by lia.
        rewrite IH by lia. rewrite Hcons. reflexivity.
      * rewrite <- app_assoc, parse_chars_quote_unit.
        rewrite IH by lia. rewrite Hcons. reflexivity.
Qed.

Lemma parse_quoted_string n s r :
  parse_value (S n) (QuoteJSONString s ++ r) = Some (JStr s, r).
Proof.
  unfold QuoteJSONString. rewrite <- !app_assoc. cbn [app parse_value skip_ws].
  change (is_json_ws 34) with false. cbv iota.
  change (34 =? 123)%N with false. change (34 =? 91)%N with false.
  change (34 =? 34)%N with true. cbv iota.
  rewrite (parse_chars_quote (length s)) by lia. reflexivity.
Qed.

Lemma skip_ws_quote s r : skip_ws (QuoteJSONString s ++ r) = QuoteJSONString s ++ r.
Proof. reflexivity. Qed.

Lemma parse_members_last n k x v r acc :
  parse_value n x = Some (v, 125%N :: r) ->
  parse_members (S n) (QuoteJSONString k ++ 58%N :: x) acc =
  Some (JObj (rev ((k, v) :: acc)), r).
Proof.
  intros Hv. cbn [parse_members]. rewrite skip_ws_quote.
  unfold QuoteJSONString. rewrite <- !app_assoc. cbn [app].
  change (34 =? 34)%N with true. cbv iota.
  rewrite (parse_chars_quote (length k)) by lia.
  cbn [rev app skip_ws]. change (is_json_ws 58) with false. cbv iota.
  change (58 =? 58)%N with true. cbv iota.
  rewrite Hv. reflexivity.
Qed.

Lemma parse_members_more n k x v rest acc :
  parse_value n x = Some (v, 44%N :: rest) ->
  parse_members (S n) (QuoteJSONString k ++ 58%N :: x) acc =
  parse_members n rest ((k, v) :: acc).
Proof.
  intros Hv. cbn [parse_members]. rewrite skip_ws_quote.
  unfold QuoteJSONString. rewrite <- !app_assoc. cbn [app].
  change (34 =? 34)%N with true. cbv iota.
  rewrite (parse_chars_quote (length k)) by lia.
  cbn [rev app skip_ws]. change (is_json_ws 58) with false. cbv iota.
  change (58 =? 58)%N with true. cbv iota.
  rewrite Hv. reflexivity.
Qed.

Lemma parse_object_of_members n x :
  parse_value (S n) (123%N :: QuoteJSONString x) =
  parse_members n (QuoteJSONString x) [].
Proof. reflexivity. Qed.

Lemma parse_array_of_one_object n x v r :
  parse_value n (123%N :: x) = Some (v, 93%N :: r) ->
  parse_value (S (S n)) (91%N :: 123%N :: x) = Some (JArr [v], r).
Proof.
  intros Hv.
  change (parse_value (S (S n)) (91%N :: 123%N :: x))
    with (parse_elements (S n) (123%N :: x) []).
  cbn [parse_elements]. rewrite Hv. reflexivity.
Qed.

(** X10.  The body of the request reads back as written: parsing it gives
    an object whose [imageBase64] member is the image and whose [prompt]
    member is the prompt, code unit for code unit, whatever they contain
    (quotes, backslashes, control characters, surrogates); without a
    prompt the object has no [prompt] member at all. *)
Theorem request_body_round_trip (r : request) :
  JSON_parse (request_body r) =
  Some (JObj ((js "imageBase64", JStr (imageBase64 r)) ::
              match prompt r with
              | Some p => [(js "prompt", JStr p)]
              | None => []
              end)).
Proof.
  unfold JSON_parse.
  assert (Hlen : exists n, (2 * length (request_body r) + 2 = 4 + n)%nat).
  { exists (2 * length (request_body r) - 2)%nat.
    unfold request_body. rewrite length_app. simpl length. lia. }
  destruct Hlen as [n ->].
  assert (Hp : parse_value (4 + n) (request_body r) =
               Some (JObj ((js "imageBase64", JStr (imageBase64 r)) ::
                           match prompt r with
                           | Some p => [(js "prompt", JStr p)]
                           | None => []
                           end), [])).
  { unfold request_body.
    change (js "{" ++ QuoteJSONString (js "imageBase64") ++ js ":" ++ ?t)
      with (123%N :: QuoteJSONString (js "imageBase64") ++ 58%N :: t).
    change (4 + n)%nat with (S (S (S (S n)))).
    change (parse_value (S (S (S (S n))))
              (123%N :: QuoteJSONString (js "imageBase64") ++ ?t))
      with (parse_members (S (S (S n))) (QuoteJSONString (js "imageBase64") ++ t) []).
    destruct (prompt r) as [p|].
    - assert (H2 : parse_value (S n) (QuoteJSONString p ++ js "}") =
                   Some (JStr p, [125%N])) by apply parse_quoted_string.
      assert (H1 : parse_value (S (S n))
                     (QuoteJSONString (imageBase64 r) ++
                      (js "," ++ QuoteJSONString (js "prompt") ++ js ":"
                         ++ QuoteJSONString p) ++ js "}") =
                   Some (JStr (imageBase64 r),
                         44%N :: QuoteJSONString (js "prompt") ++
                         58%N :: QuoteJSONString p ++ js "}")).
      { replace ((js "," ++ QuoteJSONString (js "prompt") ++ js ":"
                    ++ QuoteJSONString p) ++ js "}")
          with (44%N :: QuoteJSONString (js "prompt") ++
                58%N :: QuoteJSONString p ++ js "}")
          by (rewrite <- !app_assoc; reflexivity).
        apply parse_quoted_string. }
      rewrite (parse_members_more _ _ _ _ _ _ H1).
      exact (parse_members_last (S n) (js "prompt") _ _ _
               [(js "imageBase64", JStr (imageBase64 r))] H2).
    - exact (parse_members_last (S (S n)) (js "imageBase64") _ _ _ []
               (parse_quoted_string (S n) (imageBase64 r) [125%N])). }
  rewrite Hp. reflexivity.
Qed.

(** * Streams of events, end to end *)

Lemma hex_digit_not_newline d : hex_digit d <> LF.
Proof. unfold hex_digit, LF. destruct (N.ltb_spec d 10); lia. Qed.

Lemma unicode_escape_no_newline c : Forall (fun x => x <> LF) (unicode_escape c).
Proof.
  unfold unicode_escape.
  repeat constructor; try apply hex_digit_not_newline; discriminate.
Qed.

Lemma quote_units_no_newline n : forall s,
  (length s <= n)%nat -> Forall (fun x => x <> LF) (quote_units s).
Proof.
  induction n as [|n IH]; intros s Hn.
  - destruct s; [constructor|simpl in Hn; lia].
  - destruct s as [|c s]; [constructor|]. simpl in Hn. cbn [quote_units].
    destruct (is_leading_surrogate c) eqn:Ec.
    + unfold is_leading_surrogate in Ec. apply andb_true_iff in Ec as [E1 _].
      apply N.leb_le in E1.
      destruct s as [|d s]; [apply unicode_escape_no_newline|].
      destruct (is_trailing_surrogate d) eqn:Ed.
      * unfold is_trailing_surrogate in Ed. apply andb_true_iff in Ed as [D1 _].
        apply N.leb_le in D1.
        constructor; [unfold LF; lia|]. constructor; [unfold LF; lia|].
        apply IH. simpl in Hn. lia.
      * apply Forall_app. split; [apply unicode_escape_no_newline|].
        apply IH. lia.
    + destruct (is_trailing_surrogate c);
        (apply Forall_app; split; [|apply IH; lia]);
        [apply unicode_escape_no_newline|].
      unfold quote_unit.
      repeat match goal with
             | |- context [if (c =? ?k)%N then _ else _] =>
                 destruct (N.eqb_spec c k); [repeat constructor; discriminate|]
             end.
      destruct (N.ltb_spec c 32); [apply unicode_escape_no_newline|].
      repeat constructor. unfold LF. lia.
Qed.

Lemma no_newline_forall s : Forall (fun x => x <> LF) s -> indexOf s LF = -1.
Proof.
  intros H. apply indexOf_absent. rewrite Forall_forall in H.
  intros Hin. exact (H _ Hin eq_refl).
Qed.

Lemma delta_event_no_newline s : indexOf (delta_event s) LF = -1.
Proof.
  apply no_newline_forall. unfold delta_event, QuoteJSONString.
  repeat (apply Forall_app; split);
    try apply (quote_units_no_newline (length s) s (le_n _));
    repeat constructor; discriminate.
Qed.

Lemma trimEnd_app_nonspace x c :
  is_js_space c = false -> trimEnd (x ++ [c]) = x ++ [c].
Proof.
  intros Hc. induction x as [|a x IH]; simpl.
  - rewrite Hc. reflexivity.
  - rewrite IH. destruct (x ++ [c]) eqn:E; [|reflexivity].
    destruct x; discriminate.
Qed.

Lemma parse_object_open n k t :
  parse_value (S n) (123%N :: QuoteJSONString k ++ t) =
  parse_members n (QuoteJSONString k ++ t) [].
Proof. reflexivity. Qed.

Lemma parse_delta_payload s : JSON_parse (delta_payload s) = Some (delta_value s).
Proof.
  unfold JSON_parse.
  assert (Hlen : exists n, (2 * length (delta_payload s) + 2 = 9 + n)%nat).
  { exists (2 * length (delta_payload s) - 7)%nat.
    unfold delta_payload. rewrite length_app. simpl length. lia. }
  destruct Hlen as [n ->].
  assert (H1 : parse_value (S n) (QuoteJSONString s ++ js "}}]}") =
               Some (JStr s, js "}}]}")) by apply parse_quoted_string.
  pose proof (parse_members_last (S n) (js "content") _ _ _ [] H1) as H2.
  rewrite <- parse_object_open in H2.
  pose proof (parse_members_last (S (S (S n))) (js "delta") _ _ _ [] H2) as H3.
  rewrite <- parse_object_open in H3.
  pose proof (parse_array_of_one_object _ _ _ _ H3) as H4.
  pose proof (parse_members_last _ (js "choices") _ _ _ [] H4) as H5.
  rewrite <- parse_object_open in H5.
  change (9 + n)%nat with (S (S (S (S (S (S (S (S (S n))))))))).
  unfold delta_payload.
  replace (jq "{'choices':[{'delta':{'content':" ++ QuoteJSONString s ++ js "}}]}")
    with (123%N :: QuoteJSONString (js "choices") ++
          58%N :: 91%N :: 123%N :: QuoteJSONString (js "delta") ++
          58%N :: 123%N :: QuoteJSONString (js "content") ++
          58%N :: QuoteJSONString s ++ js "}}]}") by reflexivity.
  rewrite H5. reflexivity.
Qed.

Lemma process_line_delta_event s :
  process_line (delta_event s) =
  match s with [] => Skipped | _ :: _ => Fragment s end.
Proof.
  unfold process_line.
  assert (Hcr : strip_cr (delta_event s) = delta_event s).
  { unfold strip_cr, endsWith, delta_event.
    rewrite !app_assoc, rev_app_distr. reflexivity. }
  rewrite Hcr. fold (delta_payload s) in *. unfold delta_event.
  fold (delta_payload s). unfold classify_line.
  change (startsWith (data_prefix ++ ?z) (js ":")) with false.
  rewrite startsWith_app.
  destruct (str_eqb (trim (data_prefix ++ _)) []) eqn:T.
  { apply str_eqb_eq in T. destruct (trim_data_prefix _ T). }
  simpl orb. simpl negb. cbv iota.
  rewrite slice_from by lia.
  change (skipn (Z.to_nat 6) (data_prefix ++ ?z)) with z.
  assert (Ht : trim (delta_payload s) = delta_payload s).
  { unfold trim, delta_payload.
    change (trimStart (jq "{'choices':[{'delta':{'content':" ++ ?z))
      with (jq "{'choices':[{'delta':{'content':" ++ z).
    change (js "}}]}") with (js "}}]" ++ [125%N]).
    rewrite !app_assoc. apply trimEnd_app_nonspace. reflexivity. }
  rewrite Ht.
  change (str_eqb (delta_payload s) DONE) with false. cbv iota.
  unfold parse_event. rewrite parse_delta_payload.
  change (delta_content (delta_value s)) with (Some (Some (JStr s))).
  cbv iota. destruct s; reflexivity.
Qed.

Lemma sse_stream_cons s texts :
  sse_stream (s :: texts) = delta_event s ++ LF :: ([] ++ LF :: sse_stream texts).
Proof.
  unfold sse_stream. simpl. rewrite <- !app_assoc. reflexivity.
Qed.

Lemma complete_lines_sse_stream texts :
  complete_lines (sse_stream texts) =
  concat (map (fun s => [delta_event s; []]) texts) ++ [js "data: [DONE]"; []].
Proof.
  induction texts as [|s texts IH].
  - reflexivity.
  - rewrite sse_stream_cons.
    rewrite complete_lines_line by apply delta_event_no_newline.
    rewrite complete_lines_line by reflexivity.
    rewrite IH. reflexivity.
Qed.

Lemma drain_fragments buf : forall acc,
  map fragment (updates (drain buf acc)) = fragments_until_halt (complete_lines buf).
Proof.
  induction buf as [tail Ht|line rest Hl IH] using buffer_ind; intros acc.
  - rewrite drain_tail, complete_lines_tail by exact Ht. reflexivity.
  - rewrite drain_line, complete_lines_line by exact Hl. simpl.
    destruct (process_line line) as [| |c|l]; simpl; try reflexivity.
    + apply IH.
    + rewrite IH. reflexivity.
Qed.

Lemma sse_lines_calm texts :
  calm_after_sentinel
    (concat (map (fun s => [delta_event s; []]) texts) ++ [js "data: [DONE]"; []]) = true.
Proof.
  induction texts as [|s texts IH]; [reflexivity|].
  cbn [map concat app calm_after_sentinel].
  rewrite process_line_delta_event.
  change (process_line []) with Skipped.
  destruct s; exact IH.
Qed.

Lemma sse_lines_text texts :
  text_until_halt
    (concat (map (fun s => [delta_event s; []]) texts) ++ [js "data: [DONE]"; []]) =
  concat texts.
Proof.
  induction texts as [|s texts IH]; [reflexivity|].
  cbn [map concat app text_until_halt].
  rewrite process_line_delta_event.
  change (process_line []) with Skipped.
  destruct s; cbv iota; rewrite IH; reflexivity.
Qed.

Lemma sse_lines_fragments texts :
  fragments_until_halt
    (concat (map (fun s => [delta_event s; []]) texts) ++ [js "data: [DONE]"; []]) =
  filter nonempty texts.
Proof.
  induction texts as [|s texts IH]; [reflexivity|].
  cbn [map concat app fragments_until_halt].
  rewrite process_line_delta_event.
  change (process_line []) with Skipped.
  destruct s; cbv iota; rewrite IH; reflexivity.
Qed.

Lemma sse_stream_decoded (texts : list jsstring)
    (pieces : list jsstring) :
  concat pieces = sse_stream texts ->
  assistantContent (decode pieces) = concat texts /\
  map fragment (updates (decode pieces)) = filter nonempty texts.
Proof.
  intros Hs.
  assert (Hc : calm_after_sentinel (complete_lines (concat pieces)) = true).
  { rewrite Hs, complete_lines_sse_stream. apply sse_lines_calm. }
  split.
  - rewrite (calm_stream_text pieces Hc).
    rewrite Hs, complete_lines_sse_stream. apply sse_lines_text.
  - unfold decode.
    destruct (read_loop_as_one_pass pieces [] [] eq_refl Hc) as [_ ->].
    cbn [app]. rewrite (drain_fragments (concat pieces) []).
    rewrite Hs, complete_lines_sse_stream. apply sse_lines_fragments.
Qed.

(** X11.  A stream of content events followed by the sentinel is decoded
    to the concatenation of the texts the events carry, whatever the
    texts contain (newlines, quotes, backslashes, control characters,
    surrogates) and however the stream is cut into chunks; one update is
    published per non-empty text, in order, an empty text publishing
    nothing. *)
Theorem event_stream_is_decoded_to_its_texts (texts : list jsstring)
    (pieces : list jsstring) :
  concat pieces = sse_stream texts ->
  assistantContent (decode pieces) = concat texts /\
  map fragment (updates (decode pieces)) = filter nonempty texts.
Proof. exact (sse_stream_decoded texts pieces). Qed.

Lemma event_stream_is_decoded_to_its_texts_witness :
  assistantContent
    (decode [firstn 50 (sse_stream [jq "He said 'hi'" ++ [LF]; []; [55357; 56832; 55357]%N]);
             skipn 50 (sse_stream [jq "He said 'hi'" ++ [LF]; []; [55357; 56832; 55357]%N])]) =
  jq "He said 'hi'" ++ [LF; 55357; 56832; 55357]%N.
Proof.
  refine (proj1 (event_stream_is_decoded_to_its_texts
                   [jq "He said 'hi'" ++ [LF]; []; [55357; 56832; 55357]%N] _ _)).
  vm_compute. reflexivity.
Defined.

(** * The page after a send *)

Lemma page_ext (a b : page) :
  messages a = messages b -> input a = input b ->
  selectedImage a = selectedImage b -> isLoading a = isLoading b ->
  fileInput a = fileInput b -> toasts a = toasts b ->
  requests a = requests b -> a = b.
Proof. destruct a, b. simpl. intros. subst. reflexivity. Qed.

Lemma last_published pieces :
  match rev (updates (decode pieces)) with
  | [] => assistantMessage
  | u :: _ => answer (published u)
  end = answer (assistantContent (decode pieces)).
Proof.
  destruct (read_loop_chained pieces [] []) as [Hc Ha].
  fold (decode pieces) in Hc, Ha. rewrite Ha.
  destruct (rev (updates (decode pieces))) as [|u t] eqn:E.
  - apply (f_equal (@rev update)) in E. rewrite rev_involutive in E.
    rewrite E. reflexivity.
  - apply (f_equal (@rev update)) in E. rewrite rev_involutive in E.
    simpl in E. rewrite E in *.
    rewrite (chained_published [] (rev t) u [] Hc). reflexivity.
Qed.

Lemma handleSend_page (net : fetch_result) (st : page) (c : N) (img : jsstring) :
  selectedImage st = Some (c :: img) ->
  handleSend net st =
  match thrown_by net with
  | None =>
      {| messages := messages st ++
                     [userMessage st (c :: img);
                      {| role := assistant;
                         content := assistantContent (decode (received net));
                         imageUrl := None |}];
         input := [];
         selectedImage := None;
         isLoading := false;
         fileInput := match fileInput st with Some _ => Some [] | None => None end;
         toasts := toasts st;
         requests := requests st ++ [analysis_request st (c :: img)] |}
  | Some error =>
      {| messages := messages st ++ [userMessage st (c :: img)];
         input := [];
         selectedImage := Some (c :: img);
         isLoading := false;
         fileInput := fileInput st;
         toasts := toasts st ++ [error_text error];
         requests := requests st ++ [analysis_request st (c :: img)] |}
  end.
Proof.
  intros Hsel. rewrite (handleSend_with_image net st c img Hsel).
  set (img' := c :: img).
  assert (Hm : messages (at_try st img') =
               (messages st ++ [userMessage st img']) ++ [assistantMessage])
    by reflexivity.
  unfold try_block, thrown_by, received, http_failed.
  destruct net as [e|r].
  { apply page_ext; simpl; try reflexivity; try exact Hsel.
    apply slice_last_snoc. }
  destruct (ok r) eqn:Eok; [destruct (body r) as [b|] eqn:Eb|]; simpl.
  - set (us := updates (decode (chunks b))).
    set (st1 := fetch_post _ (at_try st img')).
    destruct (apply_updates_frame us st1) as (Hi & Hs & Hl & Hf & Ht & Hr).
    pose proof (apply_updates_messages us st1 _ _ Hm) as Hmsg.
    unfold us in Hmsg at 2. rewrite last_published in Hmsg.
    destruct (read_error b) as [e|]; apply page_ext; simpl;
      rewrite ?Hmsg, ?Hi, ?Hs, ?Hl, ?Hf, ?Ht, ?Hr; try reflexivity.
    + apply slice_last_snoc.
    + exact Hsel.
    + rewrite <- app_assoc. reflexivity.
  - apply page_ext; simpl; try reflexivity; try exact Hsel.
    apply slice_last_snoc.
  - apply page_ext; simpl; try reflexivity; try exact Hsel.
    apply slice_last_snoc.
Qed.

(** X12.  The page after a send that proceeds, in full.  When the stream
    completes, the transcript is the old one followed by the user message
    and by one assistant message that holds the whole decoded text (an
    empty one when nothing was decoded); the input is emptied, the
    selection and the file input are cleared, no toast is shown.  When
    the send fails, the transcript is the old one followed by the user
    message, the text of what was thrown is shown, the selection stays,
    and the input is emptied all the same.  Either way exactly one request
    was issued and sending is enabled again. *)
Theorem page_after_send (net : fetch_result) (st : page) (c : N) (img : jsstring) :
  selectedImage st = Some (c :: img) ->
  handleSend net st =
  match thrown_by net with
  | None =>
      {| messages := messages st ++
                     [userMessage st (c :: img);
                      {| role := assistant;
                         content := assistantContent (decode (received net));
                         imageUrl := None |}];
         input := [];
         selectedImage := None;
         isLoading := false;
         fileInput := match fileInput st with Some _ => Some [] | None => None end;
         toasts := toasts st;
         requests := requests st ++ [analysis_request st (c :: img)] |}
  | Some error =>
      {| messages := messages st ++ [userMessage st (c :: img)];
         input := [];
         selectedImage := Some (c :: img);
         isLoading := false;
         fileInput := fileInput st;
         toasts := toasts st ++ [error_text error];
         requests := requests st ++ [analysis_request st (c :: img)] |}
  end.
Proof. exact (handleSend_page net st c img). Qed.

Lemma page_after_send_witness :
  handleSend good_stream sample_page =
  {| messages := messages sample_page ++
                 [{| role := user; content := js "what breed?";
                     imageUrl := Some (js "data:image/jpeg;base64,BBBB") |};
                  {| role := assistant; content := js "a cat"; imageUrl := None |}];
     input := [];
     selectedImage := None;
     isLoading := false;
     fileInput := Some [];
     toasts := [];
     requests := [{| imageBase64 := js "data:image/jpeg;base64,BBBB";
                     prompt := Some (js "what breed?") |}] |}.
Proof.
  rewrite (page_after_send good_stream sample_page
             (ch "d") (js "ata:image/jpeg;base64,BBBB") eq_refl).
  vm_compute. reflexivity.
Defined.

(** X13.  A failed send empties the input although the question was not
    answered: sending again without typing it again asks the default
    question, about the same image, and the request carries no prompt. *)
Theorem retry_after_failure_asks_the_default_question
    (net1 net2 : fetch_result) (error : thrown) (st : page)
    (c : N) (img : jsstring) :
  selectedImage st = Some (c :: img) ->
  thrown_by net1 = Some error ->
  requests (handleSend net2 (handleSend net1 st)) =
    requests st ++
    [analysis_request st (c :: img);
     {| imageBase64 := c :: img; prompt := None |}] /\
  exists after,
    messages (handleSend net2 (handleSend net1 st)) =
      messages st ++
      userMessage st (c :: img) ::
      {| role := user; content := js "What's in this image?";
         imageUrl := Some (c :: img) |} :: after.
Proof.
  intros Hsel H1.
  rewrite (handleSend_page net1 st c img Hsel), H1.
  match goal with |- context [handleSend net2 ?p] => set (st1 := p) end.
  rewrite (handleSend_page net2 st1 c img eq_refl).
  destruct (thrown_by net2); simpl; rewrite <- !app_assoc; simpl.
  - split; [reflexivity|]. exists []. reflexivity.
  - split; [reflexivity|]. eexists. reflexivity.
Qed.

Lemma retry_after_failure_asks_the_default_question_witness :
  requests (handleSend good_stream (handleSend rate_limited sample_page)) =
  [{| imageBase64 := js "data:image/jpeg;base64,BBBB";
      prompt := Some (js "what breed?") |};
   {| imageBase64 := js "data:image/jpeg;base64,BBBB"; prompt := None |}].
Proof.
  destruct (retry_after_failure_asks_the_default_question
              rate_limited good_stream (ErrorObject (Text (js "rate limited")))
              sample_page (ch "d") (js "ata:image/jpeg;base64,BBBB") eq_refl)
    as [H _].
  - vm_compute. reflexivity.
  - exact H.
Defined.

(** X14.  After a send whose stream completed the selection is gone: a
    second send is turned down with the message for an empty page, leaves
    the transcript and the requests as the first send left them, and the
    send button is disabled. *)
Theorem second_send_needs_a_new_image (net1 net2 : fetch_result) (st : page)
    (c : N) (img : jsstring) :
  selectedImage st = Some (c :: img) ->
  thrown_by net1 = None ->
  handleSend net2 (handleSend net1 st) =
    toast_error (Text (js "Please upload an image or enter a message"))
      (handleSend net1 st) /\
  send_disabled (handleSend net1 st) = true.
Proof.
  intros Hsel H1. rewrite (handleSend_page net1 st c img Hsel), H1.
  split; reflexivity.
Qed.

Lemma second_send_needs_a_new_image_witness :
  messages (handleSend good_stream (handleSend good_stream sample_page)) =
    messages (handleSend good_stream sample_page) /\
  requests (handleSend good_stream (handleSend good_stream sample_page)) =
    requests (handleSend good_stream sample_page).
Proof.
  destruct (second_send_needs_a_new_image good_stream good_stream sample_page
              (ch "d") (js "ata:image/jpeg;base64,BBBB") eq_refl eq_refl) as [H _].
  rewrite H. split; reflexivity.
Defined.

Lemma handleSend_without_image net st :
  no_image (selectedImage st) = true ->
  exists shown, handleSend net st = toast_error (Text shown) st.
Proof.
  intros H. unfold handleSend. rewrite H.
  destruct (str_eqb (trim (input st)) []); simpl; [eexists; reflexivity|].
  destruct (selectedImage st) as [[|c img]|]; try discriminate;
    eexists; reflexivity.
Qed.

(** X15.  The guard of the send button agrees with the validation in
    [handleSend]: on an idle page the button is disabled exactly when a
    send would be turned down, leaving transcript and requests alone;
    when it is enabled a send issues exactly one request. *)
Theorem send_button_guard_matches_validation (net : fetch_result) (st : page) :
  isLoading st = false ->
  if send_disabled st
  then messages (handleSend net st) = messages st /\
       requests (handleSend net st) = requests st
  else exists asked, requests (handleSend net st) = requests st ++ [asked].
Proof.
  intros Hl. unfold send_disabled. rewrite Hl. simpl.
  destruct (no_image (selectedImage st)) eqn:E.
  - destruct (handleSend_without_image net st E) as [shown ->]. tauto.
  - destruct (selectedImage st) as [[|c img]|] eqn:Hs; try discriminate.
    rewrite (handleSend_page net st c img Hs).
    destruct (thrown_by net); eexists; reflexivity.
Qed.

Lemma send_button_guard_matches_validation_witness :
  exists asked, requests (handleSend rate_limited sample_page) = [asked].
Proof.
  exact (send_button_guard_matches_validation rate_limited sample_page eq_refl).
Defined.

(** X16.  From the network to the transcript: when the body of the
    response is a stream of content events closed by the sentinel, cut
    into chunks in any way, the send appends the user message and an
    assistant message whose content is the concatenation of the texts of
    the events. *)
Theorem streamed_answer_reaches_the_transcript (texts pieces : list jsstring)
    (st : page) (c : N) (img : jsstring) :
  selectedImage st = Some (c :: img) ->
  concat pieces = sse_stream texts ->
  messages (handleSend (streamed pieces) st) =
  messages st ++
  [userMessage st (c :: img);
   {| role := assistant; content := concat texts; imageUrl := None |}].
Proof.
  intros Hsel Hs.
  rewrite (handleSend_page (streamed pieces) st c img Hsel). simpl.
  destruct (sse_stream_decoded texts pieces Hs) as [-> _].
  reflexivity.
Qed.

Lemma streamed_answer_reaches_the_transcript_witness :
  messages
    (handleSend
       (streamed [firstn 70 (sse_stream [js "A tabby "; js "cat."]);
                  skipn 70 (sse_stream [js "A tabby "; js "cat."])])
       sample_page) =
  messages sample_page ++
  [{| role := user; content := js "what breed?";
      imageUrl := Some (js "data:image/jpeg;base64,BBBB") |};
   {| role := assistant; content := js "A tabby cat."; imageUrl := None |}].
Proof.
  apply (streamed_answer_reaches_the_transcript [js "A tabby "; js "cat."] _
           sample_page (ch "d") (js "ata:image/jpeg;base64,BBBB") eq_refl).
  vm_compute. reflexivity.
Defined.

(** * Pages reached by user events *)

Lemma run_snoc evs ev st : run (evs ++ [ev]) st = react ev (run evs st).
Proof. unfold run. rewrite fold_left_app. reflexivity. Qed.

(** An event either leaves transcript, requests and the loading flag
    alone, touching the selection at most by clearing it or by setting it
    to the data URL of an accepted file, or it is a send with an image
    selected. *)
Lemma react_cases ev st :
  (messages (react ev st) = messages st /\
   requests (react ev st) = requests st /\
   isLoading (react ev st) = isLoading st /\
   (selectedImage (react ev st) = selectedImage st \/
    selectedImage (react ev st) = None \/
    exists f url,
      ev = PickFile (Some f) /\ startsWith (type f) (js "image/") = true /\
      size f <= MAX_SIZE /\ dataURL f = Some url /\
      selectedImage (react ev st) = Some url)) \/
  (exists net c img,
     selectedImage st = Some (c :: img) /\ react ev st = handleSend net st).
Proof.
  assert (Hsame : messages st = messages st /\ requests st = requests st /\
                  isLoading st = isLoading st /\
                  (selectedImage st = selectedImage st \/ selectedImage st = None \/
                   exists f url,
                     ev = PickFile (Some f) /\ startsWith (type f) (js "image/") = true /\
                     size f <= MAX_SIZE /\ dataURL f = Some url /\
                     selectedImage st = Some url)) by tauto.
  assert (Hsend : forall net,
            (messages (handleSend net st) = messages st /\
             requests (handleSend net st) = requests st /\
             isLoading (handleSend net st) = isLoading st /\
             (selectedImage (handleSend net st) = selectedImage st \/
              selectedImage (handleSend net st) = None \/
              exists f url,
                ev = PickFile (Some f) /\ startsWith (type f) (js "image/") = true /\
                size f <= MAX_SIZE /\ dataURL f = Some url /\
                selectedImage (handleSend net st) = Some url)) \/
            (exists net' c img,
               selectedImage st = Some (c :: img) /\
               handleSend net st = handleSend net' st)).
  { intros net. destruct (no_image (selectedImage st)) eqn:E.
    - left. destruct (handleSend_without_image net st E) as [shown ->].
      simpl. tauto.
    - right. destruct (selectedImage st) as [[|c img]|]; try discriminate.
      exists net, c, img. tauto. }
  unfold react. destruct (enabled ev st); [|left; exact Hsame].
  destruct ev as [file| |value|key shiftKey net|net].
  - left. unfold handleImageSelect. destruct file as [f|]; [|exact Hsame].
    destruct (startsWith (type f) (js "image/")) eqn:Et; simpl; [|tauto].
    destruct (Z.ltb_spec MAX_SIZE (size f)); simpl; [tauto|].
    destruct (dataURL f) as [url|] eqn:Eu; [|exact Hsame].
    simpl. repeat split. right. right. exists f, url. tauto.
  - left. simpl. tauto.
  - left. simpl. tauto.
  - unfold onKeyDown. destruct (_ && _); [apply Hsend|left; exact Hsame].
  - apply Hsend.
Qed.

(** X17.  No event ever removes or alters what is already in the
    transcript or in the list of requests issued: over any sequence of
    events, from any page, both only grow at the end. *)
Theorem transcript_and_requests_only_grow (evs : list event) (st : page) :
  exists more asked,
    messages (run evs st) = messages st ++ more /\
    requests (run evs st) = requests st ++ asked.
Proof.
  induction evs as [|ev evs IH] using rev_ind.
  - exists [], []. simpl. rewrite !app_nil_r. tauto.
  - destruct IH as (more & asked & Hm & Hr). rewrite run_snoc.
    destruct (react_cases ev (run evs st))
      as [(Em & Er & _)|(net & c & img & Hs & ->)].
    + exists more, asked. rewrite Em, Er. tauto.
    + rewrite (handleSend_page net _ c img Hs).
      destruct (thrown_by net); simpl; rewrite Hm, Hr, <- !app_assoc;
        eexists; eexists; split; reflexivity.
Qed.

Lemma turns_two m a rest :
  turns (m :: a :: rest) =
  is_user m && negb (no_image (imageUrl m)) &&
  (if is_user a then turns (a :: rest)
   else match imageUrl a with None => turns rest | Some _ => false end).
Proof. reflexivity. Qed.

Lemma turns_app n : forall ms tail,
  (length ms <= n)%nat ->
  match tail with [] => True | a :: _ => is_user a = true end ->
  turns (ms ++ tail) = turns ms && turns tail.
Proof.
  induction n as [|n IH]; intros ms tail Hn Ht.
  - destruct ms; [reflexivity|simpl in Hn; lia].
  - destruct ms as [|m rest]; [reflexivity|]. simpl in Hn.
    destruct rest as [|a rest'].
    + destruct tail as [|t tail'].
      * simpl. rewrite !andb_true_r. reflexivity.
      * change ([m] ++ t :: tail') with (m :: t :: tail').
        rewrite turns_two, Ht. simpl turns at 2.
        rewrite andb_true_r. reflexivity.
    + change ((m :: a :: rest') ++ tail) with (m :: a :: (rest' ++ tail)).
      rewrite !turns_two.
      destruct (is_user m && negb (no_image (imageUrl m))); [|reflexivity].
      cbn [andb]. destruct (is_user a) eqn:Ea.
      * change (a :: rest' ++ tail) with ((a :: rest') ++ tail).
        apply IH; [simpl in *; lia|exact Ht].
      * destruct (imageUrl a); [reflexivity|].
        apply IH; [simpl in Hn; lia|exact Ht].
Qed.

Lemma sent_pair_shown_pair st img :
  sent_pair (analysis_request st img) = shown_pair (userMessage st img).
Proof.
  unfold sent_pair, shown_pair, analysis_request, userMessage. simpl.
  destruct (trim (input st)); reflexivity.
Qed.

(** X18.  Every page reached from the initial one is idle, its
    transcript is a sequence of turns (a user message with an image,
    followed or not by one assistant message without an image), and the
    user messages mirror the requests issued: the same number, in the
    same order, each showing the image of its request and, as its text,
    the prompt of the request or the default question when the request
    had none. *)
Theorem reachable_pages_are_consistent (evs : list event) :
  isLoading (run evs initial_page) = false /\
  turns (messages (run evs initial_page)) = true /\
  map sent_pair (requests (run evs initial_page)) =
  map shown_pair (filter is_user (messages (run evs initial_page))).
Proof.
  induction evs as [|ev evs (Hl & Ht & Hm)] using rev_ind.
  - repeat split.
  - rewrite run_snoc.
    destruct (react_cases ev (run evs initial_page))
      as [(Em & Er & El & _)|(net & c & img & Hs & ->)].
    + rewrite Em, Er, El. tauto.
    + rewrite (handleSend_page net _ c img Hs).
      destruct (thrown_by net); simpl.
      * split; [reflexivity|].
        rewrite (turns_app (length (messages (run evs initial_page))))
          by (try apply le_n; reflexivity).
        rewrite Ht, filter_app, !map_app, Hm. simpl.
        rewrite sent_pair_shown_pair. tauto.
      * split; [reflexivity|].
        rewrite (turns_app (length (messages (run evs initial_page))))
          by (try apply le_n; reflexivity).
        rewrite Ht, filter_app, !map_app, Hm. simpl.
        rewrite sent_pair_shown_pair. tauto.
Qed.

Lemma picked_and_accepted_more evs ev url :
  picked_and_accepted evs url -> picked_and_accepted (evs ++ [ev]) url.
Proof.
  intros (f & Hin & H). exists f. split; [|exact H].
  apply in_or_app. left. exact Hin.
Qed.

Lemma accepted_selection_and_requests (evs : list event) :
  (forall url, selectedImage (run evs initial_page) = Some url ->
     picked_and_accepted evs url) /\
  (forall r, In r (requests (run evs initial_page)) ->
     picked_and_accepted evs (imageBase64 r)).
Proof.
  induction evs as [|ev evs (Hsel & Hreq)] using rev_ind.
  - split; [discriminate|intros r []].
  - rewrite run_snoc.
    destruct (react_cases ev (run evs initial_page))
      as [(_ & Er & _ & Hc)|(net & c & img & Hs & ->)].
    + split.
      * intros url Hu.
        destruct Hc as [Hc|[Hc|(f & url' & -> & Ht & Hz & Hd & Hc)]].
        -- apply picked_and_accepted_more. apply Hsel. congruence.
        -- congruence.
        -- rewrite Hc in Hu. injection Hu as <-. exists f.
           split; [apply in_or_app; right; left; reflexivity|tauto].
      * intros r Hin. rewrite Er in Hin.
        apply picked_and_accepted_more. apply Hreq. exact Hin.
    + rewrite (handleSend_page net _ c img Hs).
      assert (Ha : picked_and_accepted (evs ++ [ev]) (c :: img))
        by (apply picked_and_accepted_more; apply Hsel; exact Hs).
      split.
      * intros url Hu. destruct (thrown_by net); simpl in Hu; [|discriminate].
        injection Hu as <-. exact Ha.
      * intros r Hin.
        assert (Hin' : In r (requests (run evs initial_page) ++
                             [analysis_request (run evs initial_page) (c :: img)]))
          by (destruct (thrown_by net); exact Hin).
        apply in_app_or in Hin' as [Hin'|[<-|[]]].
        -- apply picked_and_accepted_more. apply Hreq. exact Hin'.
        -- exact Ha.
Qed.

(** X19.  The upload constraint holds from end to end: whatever the user
    does, every request the page issues carries the data URL read from a
    file that the user picked among these events, that declared an image
    type and that was not larger than 20 MiB. *)
Theorem every_request_carries_an_accepted_image (evs : list event) (r : request) :
  In r (requests (run evs initial_page)) ->
  picked_and_accepted evs (imageBase64 r).
Proof. apply accepted_selection_and_requests. Qed.

Lemma every_request_carries_an_accepted_image_witness :
  picked_and_accepted
    [PickFile (Some huge_photo); PickFile (Some limit_photo);
     TypeInput (js "what is it?"); ClickSend good_stream]
    (js "data:image/png;base64,CCCC").
Proof.
  apply (every_request_carries_an_accepted_image
           [PickFile (Some huge_photo); PickFile (Some limit_photo);
            TypeInput (js "what is it?"); ClickSend good_stream]
           {| imageBase64 := js "data:image/png;base64,CCCC";
              prompt := Some (js "what is it?") |}).
  vm_compute. left. reflexivity.
Defined.

(** * Streaming updates and the shape of the transcript *)

Lemma publish_last acc prev :
  publish acc prev =
  match prev with
  | [] => []
  | _ :: _ => removelast prev ++ [answer acc]
  end.
Proof.
  destruct prev as [|m prev]; [reflexivity|].
  destruct (exists_last (l := m :: prev)) as (before & x & E); [discriminate|].
  rewrite E, removelast_last. apply publish_snoc.
Qed.

(** X20.  Streaming updates never add or remove a message and touch the
    last one only: after any number of them the transcript has the length
    it had and the same messages before the last, an empty transcript
    stays empty, and every other part of the page is as it was. *)
Theorem updates_keep_the_shape_of_the_transcript (us : list update) (st : page) :
  length (messages (apply_updates us st)) = length (messages st) /\
  removelast (messages (apply_updates us st)) = removelast (messages st) /\
  input (apply_updates us st) = input st /\
  selectedImage (apply_updates us st) = selectedImage st /\
  isLoading (apply_updates us st) = isLoading st /\
  fileInput (apply_updates us st) = fileInput st /\
  toasts (apply_updates us st) = toasts st /\
  requests (apply_updates us st) = requests st.
Proof.
  assert (Hlen : forall st0,
            length (messages (apply_updates us st0)) = length (messages st0)).
  { induction us as [|u us IH]; intros st0; [reflexivity|].
    simpl. rewrite IH. simpl. rewrite publish_last.
    destruct (messages st0) as [|m ms]; [reflexivity|].
    destruct (exists_last (l := m :: ms)) as (before & x & E); [discriminate|].
    rewrite E, removelast_last, !length_app. reflexivity. }
  assert (Hfront : forall st0,
            removelast (messages (apply_updates us st0)) = removelast (messages st0)).
  { clear Hlen. induction us as [|u us IH]; intros st0; [reflexivity|].
    simpl. rewrite IH. simpl. rewrite publish_last.
    destruct (messages st0) as [|m ms]; [reflexivity|].
    rewrite removelast_last. reflexivity. }
  destruct (apply_updates_frame us st) as (Hi & Hs & Hl & Hf & Ht & Hr).
  repeat split; try assumption; [apply Hlen|apply Hfront].
Qed.
